(** * Word manipulation for finitely presented groups

    A shallow embedding of [presentations.py]: the functions on lists of
    integers (alphabets and words) and the partition generator, followed by
    the properties established about them.

    Conventions of the embedding.
    - A Python [int] is a [Z]; a Python list of ints is a [list Z].
    - A Python expression that can raise ([list[i]] out of range,
      [alphabet.index(x)] for an absent [x]) yields an [option]; [None]
      stands for the raised exception.
    - A [for] loop over [range(a, b)] is a recursion over the list
      [Py.range a b]; a [break] or an early [return] ends the recursion.
    - Recursion that is not structural takes a [fuel] argument.
    - A Python [str] is the list of its code points. *)

From Stdlib Require Import ZArith List Lia Bool Sorting.Sorted.
From Stdlib Require Import Sorting.Permutation.
From Stdlib Require String Ascii.
Import ListNotations.
Import String.StringSyntax.
Delimit Scope string_scope with string.
Open Scope Z_scope.

(** ** Python primitives *)

Module Py.

Definition bind {A B : Type} (c : option A) (k : A -> option B) : option B :=
  match c with
  | Some a => k a
  | None => None
  end.

Definition len {A : Type} (l : list A) : Z := Z.of_nat (length l).

(** [range(a, b)] *)
Definition range (a b : Z) : list Z :=
  map (fun i => a + Z.of_nat i) (seq 0 (Z.to_nat (b - a))).

(** The position a slice bound [n] denotes in a list of length [n0]:
    negative bounds count from the end, and everything is clamped. *)
Definition clamp (n0 n : Z) : nat :=
  Z.to_nat (if n <? 0 then Z.max (n0 + n) 0 else Z.min n n0).

(** [l[n:]] *)
Definition slice_from {A : Type} (l : list A) (n : Z) : list A :=
  skipn (clamp (len l) n) l.

(** [l[:n]] *)
Definition slice_to {A : Type} (l : list A) (n : Z) : list A :=
  firstn (clamp (len l) n) l.

(** [l[i]], with [None] for [IndexError] *)
Definition get {A : Type} (l : list A) (i : Z) : option A :=
  if i <? 0
  then if len l + i <? 0 then None else nth_error l (Z.to_nat (len l + i))
  else nth_error l (Z.to_nat i).

(** [l.index(x)], with [None] for [ValueError] *)
Fixpoint index (l : list Z) (x : Z) : option Z :=
  match l with
  | [] => None
  | a :: r => if a =? x then Some 0 else option_map Z.succ (index r x)
  end.

(** [l0 == l1] on lists of ints *)
Fixpoint list_eqb (l0 l1 : list Z) : bool :=
  match l0, l1 with
  | [], [] => true
  | a :: r0, b :: r1 => (a =? b) && list_eqb r0 r1
  | _, _ => false
  end.

End Py.

Notation "x <- c ;; k" := (Py.bind c (fun x => k))
  (at level 61, c at next level, right associativity).

(** ** The functions of [presentations.py] *)

(** [standardAlphabet(n)]: the loop extends the alphabet by [i, -i]. *)
Definition standardAlphabet (n : Z) : list Z :=
  fold_left (fun alphabet i => alphabet ++ [i; - i]) (Py.range 1 (n + 1)) [].

(** [cyclicShiftLeft(list, n)] is [list[n:] + list[:n]]. *)
Definition cyclicShiftLeft (lst : list Z) (n : Z) : list Z :=
  Py.slice_from lst n ++ Py.slice_to lst n.

(** The loop of [cyclicShifts]: [break] at the first shift equal to [list]. *)
Fixpoint cyclicShifts_loop (lst : list Z) (idxs : list Z) (shifts : list (list Z))
  : list (list Z) :=
  match idxs with
  | [] => shifts
  | i :: idxs' =>
      if Py.list_eqb (cyclicShiftLeft lst i) lst
      then shifts
      else cyclicShifts_loop lst idxs' (shifts ++ [cyclicShiftLeft lst i])
  end.

Definition cyclicShifts (lst : list Z) : list (list Z) :=
  cyclicShifts_loop lst (Py.range 1 (Py.len lst)) [lst].

(** The loop of [inverse]: appends [-list[len(list)-i]]. *)
Fixpoint inverse_loop (lst : list Z) (idxs : list Z) (inverse : list Z)
  : option (list Z) :=
  match idxs with
  | [] => Some inverse
  | i :: idxs' =>
      x <- Py.get lst (Py.len lst - i) ;;
      inverse_loop lst idxs' (inverse ++ [- x])
  end.

Definition inverse (lst : list Z) : option (list Z) :=
  inverse_loop lst (Py.range 1 (Py.len lst + 1)) [].

(** The loop of [inverseCyclicShifts]: each shift, then its inverse. *)
Fixpoint inverseCyclicShifts_loop (shifts : list (list Z))
    (shiftsAndInverses : list (list Z)) : option (list (list Z)) :=
  match shifts with
  | [] => Some shiftsAndInverses
  | shift :: rest =>
      inv <- inverse shift ;;
      inverseCyclicShifts_loop rest (shiftsAndInverses ++ [shift] ++ [inv])
  end.

Definition inverseCyclicShifts (lst : list Z) : option (list (list Z)) :=
  inverseCyclicShifts_loop (cyclicShifts lst) [].

(** The loop of [isCyclicallyReduced]: [list[i-1] == -list[i]] returns
    [False] at once. *)
Fixpoint isCyclicallyReduced_loop (lst : list Z) (idxs : list Z) : option bool :=
  match idxs with
  | [] => Some true
  | i :: idxs' =>
      a <- Py.get lst (i - 1) ;;
      b <- Py.get lst i ;;
      if a =? - b then Some false else isCyclicallyReduced_loop lst idxs'
  end.

Definition isCyclicallyReduced (lst : list Z) : option bool :=
  isCyclicallyReduced_loop lst (Py.range 0 (Py.len lst)).

(** [shortLexPrecedes(list0, list1, alphabet)]; the recursive call is on
    [list0[1:]] and [list1[1:]]. *)
Fixpoint shortLexPrecedes (list0 list1 alphabet : list Z) : option bool :=
  match list1 with
  | [] => Some false
  | b :: list1' =>
      match list0 with
      | [] => Some true
      | a :: list0' =>
          if negb (a =? b)
          then i <- Py.index alphabet a ;;
               j <- Py.index alphabet b ;;
               Some (i <? j)
          else shortLexPrecedes list0' list1' alphabet
      end
  end.

(** The loop of [isCyclicInverselyMinimal]. *)
Fixpoint isCyclicInverselyMinimal_loop (shifts : list (list Z))
    (lst alphabet : list Z) : option bool :=
  match shifts with
  | [] => Some true
  | shift :: rest =>
      p <- shortLexPrecedes shift lst alphabet ;;
      if (p : bool) then Some false
      else isCyclicInverselyMinimal_loop rest lst alphabet
  end.

Definition isCyclicInverselyMinimal (lst alphabet : list Z) : option bool :=
  shifts <- inverseCyclicShifts lst ;;
  isCyclicInverselyMinimal_loop shifts lst alphabet.

(** [odometerSuccessor(list, alphabet)].  The recursive call is on
    [list[:len(list)-1]], one element shorter, so [length list] calls are
    enough; [odometerSuccessor_fuel] returns [None] when the fuel runs out
    as well as when Python raises. *)
Fixpoint odometerSuccessor_fuel (fuel : nat) (lst alphabet : list Z)
  : option (list Z) :=
  match lst with
  | [] => Some []
  | _ :: _ =>
      match fuel with
      | O => None
      | S fuel' =>
          x <- Py.get lst (-1) ;;
          z <- Py.get alphabet (-1) ;;
          if negb (x =? z)
          then i <- Py.index alphabet x ;;
               y <- Py.get alphabet (i + 1) ;;
               Some (Py.slice_to lst (Py.len lst - 1) ++ [y])
          else r <- odometerSuccessor_fuel fuel'
                      (Py.slice_to lst (Py.len lst - 1)) alphabet ;;
               a0 <- Py.get alphabet 0 ;;
               Some (r ++ [a0])
      end
  end.

Definition odometerSuccessor (lst alphabet : list Z) : option (list Z) :=
  odometerSuccessor_fuel (length lst) lst alphabet.

(** The loop of [shortLexSuccessor] that computes [isAllLastLetter]. *)
Fixpoint isAllLastLetter_loop (lst alphabet : list Z) (idxs : list Z)
    (isAllLastLetter : bool) : option bool :=
  match idxs with
  | [] => Some isAllLastLetter
  | i :: idxs' =>
      x <- Py.get lst i ;;
      z <- Py.get alphabet (-1) ;;
      isAllLastLetter_loop lst alphabet idxs'
        (if negb (x =? z) then false else isAllLastLetter)
  end.

Definition shortLexSuccessor (lst alphabet : list Z) : option (list Z) :=
  match lst with
  | [] => a0 <- Py.get alphabet 0 ;; Some [a0]
  | _ :: _ =>
      isAllLastLetter <-
        isAllLastLetter_loop lst alphabet (Py.range 0 (Py.len lst)) true ;;
      if (isAllLastLetter : bool)
      then a0 <- Py.get alphabet 0 ;;
           r <- odometerSuccessor lst alphabet ;;
           Some ([a0] ++ r)
      else odometerSuccessor lst alphabet
  end.

(** The two nested loops of [nondecreasingPartitionsStartingWith]; [rec i]
    is the recursive call [nondecreasingPartitionsStartingWith(i, n-k)]. *)
Fixpoint startingWith_loop (rec : Z -> option (list (list Z))) (k : Z)
    (idxs : list Z) (partitions : list (list Z)) : option (list (list Z)) :=
  match idxs with
  | [] => Some partitions
  | i :: idxs' =>
      smaller <- rec i ;;
      startingWith_loop rec k idxs' (partitions ++ map (fun p => [k] ++ p) smaller)
  end.

(** [nondecreasingPartitionsStartingWith(k, n)]; [None] is only ever the
    fuel running out (for [k <= 0 < n] the Python recursion does not end). *)
Fixpoint nondecreasingPartitionsStartingWith (fuel : nat) (k n : Z)
  : option (list (list Z)) :=
  match fuel with
  | O => None
  | S fuel' =>
      if k =? n then Some [[n]]
      else if k <? n
      then startingWith_loop
             (fun i => nondecreasingPartitionsStartingWith fuel' i (n - k))
             k (Py.range k (n - k + 1)) []
      else Some []
  end.

(** The loop of [nondecreasingPartitions]. *)
Fixpoint nondecreasingPartitions_loop (fuel : nat) (n : Z) (idxs : list Z)
    (partitions : list (list Z)) : option (list (list Z)) :=
  match idxs with
  | [] => Some partitions
  | i :: idxs' =>
      ps <- nondecreasingPartitionsStartingWith fuel i n ;;
      nondecreasingPartitions_loop fuel n idxs' (partitions ++ ps)
  end.

Definition nondecreasingPartitions (fuel : nat) (n : Z)
  : option (list (list Z)) :=
  nondecreasingPartitions_loop fuel n (Py.range 1 (n + 1)) [].

(** [positiveWithoutDuplicates(list)]: the loop appends [abs(number)] when
    [number != 0 and abs(number) not in positives]. *)
Fixpoint positiveWithoutDuplicates_loop (lst : list Z) (positives : list Z)
  : list Z :=
  match lst with
  | [] => positives
  | number :: rest =>
      if negb (number =? 0)
         && negb (existsb (fun y => y =? Z.abs number) positives)
      then positiveWithoutDuplicates_loop rest (positives ++ [Z.abs number])
      else positiveWithoutDuplicates_loop rest positives
  end.

Definition positiveWithoutDuplicates (lst : list Z) : list Z :=
  positiveWithoutDuplicates_loop lst [].

(** Strings: a [str] is the list of its code points. *)
Module PyStr.

(** A string literal. *)
Definition lit (s : String.string) : list Z :=
  map (fun a => Z.of_N (Ascii.N_of_ascii a)) (String.list_ascii_of_string s).

Arguments lit s%_string.

(** [chr(i)], with [None] for the [ValueError] outside [range(0x110000)]. *)
Definition chr (i : Z) : option (list Z) :=
  if (0 <=? i) && (i <? 1114112) then Some [i] else None.

End PyStr.

(** The class [Word]. *)
Module Word.

Record t : Type := make { alphabet : list Z; asIntegerList : list Z }.

(** The loop of [__str__] (and of [__repr__], which has the same body). *)
Fixpoint str_loop (integers : list Z) (wordString : list Z)
  : option (list Z) :=
  match integers with
  | [] => Some wordString
  | integer :: rest =>
      if integer >? 0
      then c <- PyStr.chr (96 + integer) ;;
           str_loop rest (wordString ++ c)
      else if integer =? 0
      then str_loop rest (wordString ++ PyStr.lit "1")
      else c <- PyStr.chr (96 - integer) ;;
           str_loop rest ((wordString ++ c) ++ PyStr.lit "'")
  end.

Definition str (self : t) : option (list Z) :=
  str_loop (asIntegerList self) (PyStr.lit "").

Definition repr (self : t) : option (list Z) :=
  str_loop (asIntegerList self) (PyStr.lit "").

(** The method [cyclicShiftLeft]. *)
Definition shiftLeft (self : t) (n : Z) : t :=
  make (alphabet self) (cyclicShiftLeft (asIntegerList self) n).

(** The method [cyclicShifts]: a [Word] for each shifted list. *)
Definition shifts (self : t) : list t :=
  fold_left (fun acc shiftedIntegerList =>
               acc ++ [make (alphabet self) shiftedIntegerList])
            (cyclicShifts (asIntegerList self)) [].

End Word.

(** The class [Presentation]. *)
Module Presentation.

Record t : Type := make { generators : list Z; relations : list Word.t }.

(** The loop over the positive generators. *)
Fixpoint generators_loop (positives : list Z) (presentationString : list Z)
  : option (list Z) :=
  match positives with
  | [] => Some presentationString
  | positiveGenerator :: rest =>
      c <- PyStr.chr (96 + positiveGenerator) ;;
      generators_loop rest (presentationString ++ (c ++ PyStr.lit ", "))
  end.

(** [if s[-2] == ',': s = s[:-2]] *)
Definition strip_comma (presentationString : list Z) : option (list Z) :=
  c <- Py.get presentationString (-2) ;;
  Some (if c =? 44 then Py.slice_to presentationString (-2)
        else presentationString).

(** The loop over the relations. *)
Fixpoint relations_loop (rels : list Word.t) (presentationString : list Z)
  : option (list Z) :=
  match rels with
  | [] => Some presentationString
  | relation :: rest =>
      r <- Word.str relation ;;
      relations_loop rest (presentationString ++ (r ++ PyStr.lit ", "))
  end.

(** [__str__] (and [__repr__], which has the same body). *)
Definition str (self : t) : option (list Z) :=
  s <- generators_loop (positiveWithoutDuplicates (generators self))
         (PyStr.lit "<") ;;
  s <- strip_comma s ;;
  s <- relations_loop (relations self) (s ++ PyStr.lit " | ") ;;
  s <- strip_comma s ;;
  Some (s ++ PyStr.lit ">").

End Presentation.

(** ** Notions used to state the properties *)

(** Every letter of [w] occurs in [alphabet]. *)
Definition over (alphabet w : list Z) : Prop :=
  Forall (fun x => In x alphabet) w.

(** The letter at position [i] under cyclic indexing: positions are taken
    modulo the length, so position [-1] is the last one. *)
Definition cyclic_nth (w : list Z) (i : Z) : Z :=
  nth (Z.to_nat (i mod Py.len w)) w 0.

(** [w] has no position [i] with [w[i-1] == -w[i]] under cyclic indexing. *)
Definition no_cyclic_cancellation (w : list Z) : Prop :=
  forall i, 0 <= i < Py.len w -> cyclic_nth w (i - 1) <> - cyclic_nth w i.

(** The shortlex order, following its definition: the shorter word comes
    first, and words of equal length are compared at the first position
    where they differ, by the index of the letter in the alphabet. *)
Fixpoint first_difference_smaller (alphabet w0 w1 : list Z) : bool :=
  match w0, w1 with
  | a :: r0, b :: r1 =>
      if a =? b then first_difference_smaller alphabet r0 r1
      else match Py.index alphabet a, Py.index alphabet b with
           | Some i, Some j => i <? j
           | _, _ => false
           end
  | _, _ => false
  end.

Definition shortlex_lt (alphabet w0 w1 : list Z) : bool :=
  (length w0 <? length w1)%nat
  || ((length w0 =? length w1)%nat && first_difference_smaller alphabet w0 w1).

(** [k] applications of a successor function, starting from [w]. *)
Fixpoint iterate (succ : list Z -> option (list Z)) (k : nat) (w : list Z)
  : option (list Z) :=
  match k with
  | O => Some w
  | S k' => w' <- iterate succ k' w ;; succ w'
  end.

(** A word read as a numeral in base [len alphabet], most significant letter
    first, the digit of a letter being its index in the alphabet. *)
Definition digit (alphabet : list Z) (x : Z) : Z :=
  match Py.index alphabet x with
  | Some i => i
  | None => 0
  end.

Definition value (alphabet w : list Z) : Z :=
  fold_left (fun acc x => acc * Py.len alphabet + digit alphabet x) w 0.

(** The number of words of length less than [L] over [m] letters. *)
Fixpoint words_shorter (m : Z) (L : nat) : Z :=
  match L with
  | O => 0
  | S L' => words_shorter m L' + m ^ Z.of_nat L'
  end.

(** The position of a word in the shortlex enumeration of all words. *)
Definition rank (alphabet w : list Z) : Z :=
  words_shorter (Py.len alphabet) (length w) + value alphabet w.

(** The word reached from the all-[a0] word of length [L] by [k]
    applications of the odometer successor. *)
Definition odometer_visit (alphabet : list Z) (a0 : Z) (L k : nat)
  : option (list Z) :=
  iterate (fun w => odometerSuccessor w alphabet) k (repeat a0 L).

(** The word reached from the empty word by [k] applications of the
    shortlex successor. *)
Definition shortLex_visit (alphabet : list Z) (k : nat) : option (list Z) :=
  iterate (fun w => shortLexSuccessor w alphabet) k [].

(** A non-decreasing sequence of positive integers whose sum is [n]. *)
Definition total (p : list Z) : Z := fold_right Z.add 0 p.

Definition is_nondecreasing_partition (n : Z) (p : list Z) : Prop :=
  Sorted Z.le p /\ Forall (fun x => 0 < x) p /\ total p = n.

(** What [nondecreasingPartitionsStartingWith(k, n)] is to return: the
    non-decreasing partitions of [n] whose first part is [k], each once. *)
Definition starting_with_spec (k n : Z) (ps : list (list Z)) : Prop :=
  NoDup ps /\
  forall p, In p ps <->
            (exists rest, p = k :: rest) /\ is_nondecreasing_partition n p.

(** All words of length [L], and of length at most [L], over an alphabet. *)
Fixpoint words_of_length (alphabet : list Z) (L : nat) : list (list Z) :=
  match L with
  | O => [[]]
  | S L' =>
      flat_map (fun x => map (cons x) (words_of_length alphabet L')) alphabet
  end.

Fixpoint words_up_to (alphabet : list Z) (L : nat) : list (list Z) :=
  match L with
  | O => [[]]
  | S L' => words_up_to alphabet L' ++ words_of_length alphabet (S L')
  end.

(** [isCyclicInverselyMinimal(x, alphabet)] returns [True]. *)
Definition accepted (alphabet x : list Z) : bool :=
  match isCyclicInverselyMinimal x alphabet with
  | Some true => true
  | _ => false
  end.

(** [inverseCyclicShifts(w)] has an accepted entry, and its accepted entries
    are all the same word. *)
Definition one_accepted (alphabet w : list Z) : bool :=
  match inverseCyclicShifts w with
  | Some shifts =>
      match filter (accepted alphabet) shifts with
      | [] => false
      | x :: rest => forallb (Py.list_eqb x) rest
      end
  | None => false
  end.

(** The value [inverse] returns: the word reversed, every letter negated. *)
Definition inverse_word (w : list Z) : list Z := map Z.opp (rev w).

(** The alphabet holds the negative of each of its letters. *)
Definition closed_under_negation (alphabet : list Z) : Prop :=
  forall a, In a alphabet -> In (- a) alphabet.

(** The rotations of [w] and the inverses of its rotations. *)
Definition in_class (w x : list Z) : Prop :=
  exists i, 0 <= i <= Py.len w /\
    (x = cyclicShiftLeft w i \/ x = inverse_word (cyclicShiftLeft w i)).

(** The characters [Word.__str__] writes for one letter: the lower-case
    letter numbered by the generator, the digit 1 for the identity, and the
    letter followed by an apostrophe for an inverse. *)
Definition letter_chars (i : Z) : list Z :=
  if i >? 0 then [96 + i]
  else if i =? 0 then PyStr.lit "1"
  else [96 - i] ++ PyStr.lit "'".

(** [sep.join(parts)] *)
Fixpoint join (sep : list Z) (parts : list (list Z)) : list Z :=
  match parts with
  | [] => []
  | [p] => p
  | p :: rest => p ++ sep ++ join sep rest
  end.

(** ** Sanity checks against the outputs recorded in [main] *)

Example standardAlphabet_2 : standardAlphabet 2 = [1; -1; 2; -2].
Proof. reflexivity. Qed.

Example cyclicShiftLeft_examples :
  cyclicShiftLeft [1; 2; 3; 4] 1 = [2; 3; 4; 1] /\
  cyclicShiftLeft [1; 2; 3; 4] 3 = [4; 1; 2; 3] /\
  cyclicShiftLeft [] 1 = [] /\
  cyclicShiftLeft [1; 2; 3; 4] (-1) = [4; 1; 2; 3].
Proof. repeat split. Qed.

Example isCyclicallyReduced_examples :
  isCyclicallyReduced [1; 2; -1] = Some false /\
  isCyclicallyReduced [1; 2; 1] = Some true.
Proof. split; reflexivity. Qed.

Example shortLexPrecedes_examples :
  let alphabet := standardAlphabet 2 in
  shortLexPrecedes [1; -2; 2] [1; -2; 2; 1] alphabet = Some true /\
  shortLexPrecedes [1; -2; 2; 1] [1; -2; 2] alphabet = Some false /\
  shortLexPrecedes [1; -2; 2; 1] [1; -2; 2; 2] alphabet = Some true /\
  shortLexPrecedes [1; -2; 2; 1] [1; -2; 2; 1] alphabet = Some false.
Proof. repeat split. Qed.

Example isCyclicInverselyMinimal_examples :
  let alphabet := standardAlphabet 2 in
  isCyclicInverselyMinimal [1; 2; -2] alphabet = Some true /\
  isCyclicInverselyMinimal [-1; 2; -2] alphabet = Some false /\
  isCyclicInverselyMinimal [2; -1; 2] alphabet = Some false /\
  isCyclicInverselyMinimal [1; 1] alphabet = Some true.
Proof. repeat split. Qed.

Example startingWith_examples :
  nondecreasingPartitionsStartingWith 5 4 5 = Some [] /\
  nondecreasingPartitionsStartingWith 5 2 4 = Some [[2; 2]] /\
  nondecreasingPartitionsStartingWith 5 1 4
    = Some [[1; 1; 1; 1]; [1; 1; 2]; [1; 3]].
Proof. repeat split. Qed.

(** ** Facts about the Python primitives *)

Module PyFacts.
Import Py.

Lemma len_nonneg {A : Type} (l : list A) : 0 <= len l.
Proof. unfold len; lia. Qed.

Lemma len_app {A : Type} (l1 l2 : list A) : len (l1 ++ l2) = len l1 + len l2.
Proof. unfold len; rewrite length_app; lia. Qed.

Lemma len_cons {A : Type} (x : A) (l : list A) : len (x :: l) = len l + 1.
Proof. unfold len; simpl length; lia. Qed.

Lemma range_nil a b : b <= a -> range a b = [].
Proof.
  intros H. unfold range.
  replace (Z.to_nat (b - a)) with O by lia. reflexivity.
Qed.

Lemma range_cons a b : a < b -> range a b = a :: range (a + 1) b.
Proof.
  intros H. unfold range.
  replace (Z.to_nat (b - a)) with (S (Z.to_nat (b - (a + 1)))) by lia.
  simpl seq. simpl map. f_equal; [lia|].
  rewrite <- seq_shift, map_map.
  apply map_ext. intros i. lia.
Qed.

Lemma in_range a b i : In i (range a b) <-> a <= i < b.
Proof.
  unfold range. rewrite in_map_iff. split.
  - intros (k & <- & Hk). apply in_seq in Hk. lia.
  - intros H. exists (Z.to_nat (i - a)). split; [lia|].
    apply in_seq. lia.
Qed.

Lemma length_range a b : length (range a b) = Z.to_nat (b - a).
Proof. unfold range. now rewrite length_map, length_seq. Qed.

Lemma get_nonneg {A : Type} (l : list A) i :
  0 <= i -> get l i = nth_error l (Z.to_nat i).
Proof.
  intros H. unfold get.
  destruct (Z.ltb_spec i 0); [lia | reflexivity].
Qed.

Lemma get_last {A : Type} (l : list A) (x : A) : get (l ++ [x]) (-1) = Some x.
Proof.
  unfold get. simpl (-1 <? 0). rewrite len_app.
  change (len [x]) with 1.
  pose proof (len_nonneg l).
  destruct (Z.ltb_spec (len l + 1 + -1) 0); [lia|].
  replace (Z.to_nat (len l + 1 + -1)) with (length l) by (unfold len; lia).
  rewrite nth_error_app2 by lia. now rewrite Nat.sub_diag.
Qed.

Lemma slice_to_nat {A : Type} (l : list A) (i : nat) :
  (i <= length l)%nat -> slice_to l (Z.of_nat i) = firstn i l.
Proof.
  intros H. unfold slice_to, clamp, len.
  destruct (Z.ltb_spec (Z.of_nat i) 0); [lia|].
  f_equal. lia.
Qed.

Lemma slice_from_nat {A : Type} (l : list A) (i : nat) :
  (i <= length l)%nat -> slice_from l (Z.of_nat i) = skipn i l.
Proof.
  intros H. unfold slice_from, clamp, len.
  destruct (Z.ltb_spec (Z.of_nat i) 0); [lia|].
  f_equal. lia.
Qed.

Lemma slice_to_init {A : Type} (l : list A) (x : A) :
  slice_to (l ++ [x]) (len (l ++ [x]) - 1) = l.
Proof.
  rewrite len_app. change (len [x]) with 1.
  replace (len l + 1 - 1) with (Z.of_nat (length l)) by (unfold len; lia).
  rewrite slice_to_nat by (rewrite length_app; simpl; lia).
  rewrite firstn_app, Nat.sub_diag, firstn_all. simpl. apply app_nil_r.
Qed.

Lemma list_eqb_eq l0 l1 : list_eqb l0 l1 = true <-> l0 = l1.
Proof.
  revert l1. induction l0 as [|a r0 IH]; intros [|b r1]; simpl;
    try (split; [discriminate | congruence]); try tauto.
  rewrite andb_true_iff, Z.eqb_eq, IH. split.
  - intros [-> ->]. reflexivity.
  - intros E. injection E as -> ->. tauto.
Qed.

Lemma list_eqb_neq l0 l1 : list_eqb l0 l1 = false <-> l0 <> l1.
Proof.
  rewrite <- list_eqb_eq. destruct (list_eqb l0 l1); split; congruence.
Qed.

Lemma index_some l x i :
  index l x = Some i -> 0 <= i < len l /\ nth_error l (Z.to_nat i) = Some x.
Proof.
  revert i. induction l as [|a r IH]; simpl; intros i H; [discriminate|].
  rewrite len_cons. pose proof (len_nonneg r).
  destruct (Z.eqb_spec a x) as [->|Hne].
  - injection H as <-. split; [lia | reflexivity].
  - destruct (index r x) as [j|]; [|discriminate].
    injection H as <-. destruct (IH j eq_refl) as [Hj Hn].
    split; [lia|].
    replace (Z.to_nat (Z.succ j)) with (S (Z.to_nat j)) by lia. exact Hn.
Qed.

Lemma index_in l x : In x l -> exists i, index l x = Some i.
Proof.
  induction l as [|a r IH]; simpl; [tauto|]. intros H.
  destruct (Z.eqb_spec a x) as [->|Hne]; [eauto|].
  destruct H as [H|H]; [congruence|].
  destruct (IH H) as [i ->]. simpl. eauto.
Qed.

Lemma index_inj l x y i :
  index l x = Some i -> index l y = Some i -> x = y.
Proof.
  intros Hx Hy. apply index_some in Hx, Hy. destruct Hx, Hy. congruence.
Qed.

(** In a duplicate-free list the index of the element at position [i] is [i]. *)
Lemma index_nth_error l (i : nat) x :
  NoDup l -> nth_error l i = Some x -> index l x = Some (Z.of_nat i).
Proof.
  intros Hnd. revert i. induction Hnd as [|a r Hnotin Hnd IH]; intros i H.
  - now destruct i.
  - destruct i as [|i]; simpl in *.
    + injection H as ->. now rewrite Z.eqb_refl.
    + destruct (Z.eqb_spec a x) as [->|Hne].
      * apply nth_error_In in H. contradiction.
      * rewrite (IH _ H). simpl. f_equal. lia.
Qed.

Lemma NoDup_range a b : NoDup (range a b).
Proof.
  unfold range. apply NoDup_map_NoDup_ForallPairs; [|apply seq_NoDup].
  intros x y _ _ E. lia.
Qed.

End PyFacts.

(** ** [inverse] *)

Module Inverse.
Import Py PyFacts.

(** After the indices [a, ..., len(list)] the loop has appended the negated
    first [len(list) - a + 1] letters, last one first. *)
Lemma inverse_loop_spec lst : forall (k : nat) a acc,
  Z.of_nat k = len lst - a + 1 -> 1 <= a ->
  inverse_loop lst (range a (len lst + 1)) acc
  = Some (acc ++ map Z.opp (rev (firstn k lst))).
Proof.
  induction k as [|k IH]; intros a acc Hk Ha.
  - rewrite range_nil by lia. simpl. now rewrite app_nil_r.
  - rewrite range_cons by lia. simpl inverse_loop.
    assert (Hlt : (k < length lst)%nat) by (unfold len in Hk; lia).
    destruct (nth_error lst k) as [x|] eqn:Hx;
      [|apply nth_error_None in Hx; lia].
    rewrite get_nonneg by lia.
    replace (Z.to_nat (len lst - a)) with k by lia.
    rewrite Hx. simpl bind.
    rewrite (IH (a + 1) (acc ++ [- x])) by lia.
    f_equal. rewrite <- app_assoc. f_equal.
    assert (E : firstn (S k) lst = firstn k lst ++ [x]).
    { clear - Hx. revert lst Hx. induction k as [|k IH]; intros [|y l] Hx;
        simpl in *; try discriminate.
      - now injection Hx as ->.
      - f_equal. now apply IH. }
    rewrite E, rev_app_distr. reflexivity.
Qed.

(** [inverse] never raises; it reverses the word and negates every letter. *)
Lemma inverse_eq lst : inverse lst = Some (map Z.opp (rev lst)).
Proof.
  unfold inverse.
  rewrite (inverse_loop_spec lst (length lst) 1 []) by (unfold len; lia).
  now rewrite firstn_all.
Qed.

(** C9. For every list of integers [w], [inverse(inverse(w)) == w]: the
    call [inverse(w)] returns a list [v] and [inverse(v)] returns [w];
    and [inverse([]) == []]. *)
Theorem inverse_involutive :
  (forall w : list Z, exists v, inverse w = Some v /\ inverse v = Some w) /\
  inverse [] = Some [].
Proof.
  split; [|reflexivity].
  intros w. exists (map Z.opp (rev w)). split; [apply inverse_eq|].
  rewrite inverse_eq. f_equal.
  rewrite <- map_rev, rev_involutive, map_map.
  rewrite <- (map_id w) at 2. apply map_ext. intros x. lia.
Qed.

End Inverse.

(** ** [isCyclicallyReduced] *)

Module CyclicallyReduced.
Import Py PyFacts.

Lemma get_cyclic w i :
  - len w <= i < len w -> get w i = Some (cyclic_nth w i).
Proof.
  intros H. unfold get, cyclic_nth.
  assert (Hn : forall k, (k < length w)%nat -> nth_error w k = Some (nth k w 0))
    by (intros k Hk; now apply nth_error_nth').
  destruct (Z.ltb_spec i 0).
  - destruct (Z.ltb_spec (len w + i) 0); [lia|].
    replace (i mod len w) with (len w + i).
    + apply Hn. unfold len in *. lia.
    + apply Z.mod_unique with (q := -1); lia.
  - rewrite Z.mod_small by lia. apply Hn. unfold len in *. lia.
Qed.

Lemma loop_spec w : forall (k : nat) a,
  a + Z.of_nat k = len w -> 0 <= a ->
  exists b, isCyclicallyReduced_loop w (range a (len w)) = Some b /\
    (b = true <->
     forall i, a <= i < len w -> cyclic_nth w (i - 1) <> - cyclic_nth w i).
Proof.
  induction k as [|k IH]; intros a Hk Ha.
  - rewrite range_nil by lia. exists true. split; [reflexivity|].
    split; [intros _ i Hi; lia | reflexivity].
  - rewrite range_cons by lia. simpl isCyclicallyReduced_loop.
    rewrite !get_cyclic by lia. simpl bind.
    destruct (Z.eqb_spec (cyclic_nth w (a - 1)) (- cyclic_nth w a)) as [E|E].
    + exists false. split; [reflexivity|].
      split; [discriminate|]. intros H. exfalso. apply (H a); [lia | exact E].
    + destruct (IH (a + 1)) as (b & Hb & Hiff); [lia | lia |].
      exists b. split; [exact Hb|]. rewrite Hiff. split.
      * intros H i Hi. destruct (Z.eq_dec i a) as [->|]; [exact E|].
        apply H. lia.
      * intros H i Hi. apply H. lia.
Qed.

(** [isCyclicallyReduced] never raises, and returns [True] exactly for the
    words without a cyclic cancellation. *)
Lemma isCyclicallyReduced_spec w :
  exists b, isCyclicallyReduced w = Some b /\
            (b = true <-> no_cyclic_cancellation w).
Proof.
  unfold isCyclicallyReduced, no_cyclic_cancellation.
  apply (loop_spec w (length w) 0); unfold len; lia.
Qed.

Lemma cyclic_nth_app_l u x v :
  cyclic_nth (u ++ x :: v) (len u) = x.
Proof.
  unfold cyclic_nth. pose proof (len_nonneg u). pose proof (len_nonneg v).
  rewrite Z.mod_small by (rewrite len_app, len_cons; lia).
  replace (Z.to_nat (len u)) with (length u) by (unfold len; lia).
  rewrite app_nth2 by lia. now rewrite Nat.sub_diag.
Qed.

Lemma cancelling_pair_false u x v :
  isCyclicallyReduced (u ++ x :: - x :: v) = Some false.
Proof.
  destruct (isCyclicallyReduced_spec (u ++ x :: - x :: v)) as (b & Hb & Hiff).
  rewrite Hb. f_equal. destruct b; [|reflexivity]. exfalso.
  destruct Hiff as [Hno _]. specialize (Hno eq_refl).
  pose proof (len_nonneg u). pose proof (len_nonneg v).
  apply (Hno (len u + 1)).
  - rewrite len_app, !len_cons. lia.
  - replace (len u + 1 - 1) with (len u) by lia.
    rewrite cyclic_nth_app_l.
    replace (u ++ x :: - x :: v) with ((u ++ [x]) ++ - x :: v)
      by (now rewrite <- app_assoc).
    replace (len u + 1) with (len (u ++ [x])) by (now rewrite len_app).
    rewrite cyclic_nth_app_l. lia.
Qed.

Lemma single_letter x :
  isCyclicallyReduced [x] = Some (negb (x =? 0)).
Proof.
  unfold isCyclicallyReduced. simpl.
  destruct (Z.eqb_spec x (- x)), (Z.eqb_spec x 0); simpl; try reflexivity; lia.
Qed.

(** C7.  [isCyclicallyReduced(w)] returns [True] if and only if no
    position [i] of [w] has [w[i-1] == -w[i]] under cyclic indexing; it
    returns [True] for the empty word and for every single-letter word, the
    letters of a word being generators, that is non-zero integers; and it
    returns [False] for every word that contains an adjacent cancelling
    pair [x, -x]. *)
Theorem isCyclicallyReduced_correct :
  (forall w, exists b, isCyclicallyReduced w = Some b /\
                       (b = true <-> no_cyclic_cancellation w)) /\
  isCyclicallyReduced [] = Some true /\
  (forall x, x <> 0 -> isCyclicallyReduced [x] = Some true) /\
  (forall u x v, isCyclicallyReduced (u ++ x :: - x :: v) = Some false).
Proof.
  split; [exact isCyclicallyReduced_spec|].
  split; [reflexivity|].
  split; [|exact cancelling_pair_false].
  intros x Hx. rewrite single_letter.
  destruct (Z.eqb_spec x 0); [contradiction | reflexivity].
Qed.

Lemma isCyclicallyReduced_correct_witness :
  (exists b, isCyclicallyReduced [1; 2; 1] = Some b /\
             (b = true <-> no_cyclic_cancellation [1; 2; 1])) /\
  isCyclicallyReduced [2] = Some true /\
  isCyclicallyReduced ([1] ++ 2 :: - 2 :: [1]) = Some false.
Proof.
  destruct isCyclicallyReduced_correct as (H1 & _ & H3 & H4).
  split; [apply H1|].
  split; [apply H3; lia | apply H4].
Defined.

(** The integer 0 is not a generator and stands in no word.  For the list
    [[0]] the function returns [False], 0 being its own negative. *)
Example isCyclicallyReduced_zero_list :
  isCyclicallyReduced [0] = Some false.
Proof. reflexivity. Qed.

End CyclicallyReduced.

(** ** Words over an alphabet *)

Lemma over_app alphabet u v :
  over alphabet (u ++ v) <-> over alphabet u /\ over alphabet v.
Proof. apply Forall_app. Qed.

Lemma over_cons alphabet x w :
  over alphabet (x :: w) <-> In x alphabet /\ over alphabet w.
Proof. apply Forall_cons_iff. Qed.

(** ** [shortLexPrecedes] *)

Module ShortLex.
Import Py PyFacts.

(** On letters of the alphabet the comparison never raises. *)
Lemma precedes_defined alphabet : forall a b,
  over alphabet a -> over alphabet b ->
  exists r, shortLexPrecedes a b alphabet = Some r.
Proof.
  intros a b Ha. revert b. induction Ha as [|x a Hx Ha IH]; intros b Hb.
  - destruct b; simpl; eauto.
  - destruct Hb as [|y b Hy Hb]; simpl; [eauto|].
    destruct (x =? y); simpl; [now apply IH|].
    destruct (index_in _ _ Hx) as [i ->], (index_in _ _ Hy) as [j ->].
    simpl. eauto.
Qed.

Lemma precedes_irrefl alphabet a : shortLexPrecedes a a alphabet = Some false.
Proof.
  induction a as [|x a IH]; simpl; [reflexivity|].
  now rewrite Z.eqb_refl.
Qed.

Lemma precedes_head alphabet x y a b :
  x <> y ->
  shortLexPrecedes (x :: a) (y :: b) alphabet = Some true ->
  exists i j, index alphabet x = Some i /\ index alphabet y = Some j /\ i < j.
Proof.
  intros Hne. simpl. destruct (Z.eqb_spec x y); [contradiction|]. simpl.
  destruct (index alphabet x) as [i|]; [|discriminate].
  destruct (index alphabet y) as [j|]; [|discriminate].
  simpl. intros [= H]. apply Z.ltb_lt in H. eauto.
Qed.

Lemma precedes_head_lt alphabet x y a b i j :
  index alphabet x = Some i -> index alphabet y = Some j -> i < j ->
  shortLexPrecedes (x :: a) (y :: b) alphabet = Some true.
Proof.
  intros Hi Hj Hlt. simpl.
  destruct (Z.eqb_spec x y) as [->|]; [rewrite Hi in Hj; injection Hj; lia|].
  simpl. rewrite Hi, Hj. simpl. f_equal. now apply Z.ltb_lt.
Qed.

Lemma precedes_trans alphabet : forall a b c,
  shortLexPrecedes a b alphabet = Some true ->
  shortLexPrecedes b c alphabet = Some true ->
  shortLexPrecedes a c alphabet = Some true.
Proof.
  induction a as [|x a IH]; intros b c Hab Hbc.
  - destruct c; [destruct b; discriminate | reflexivity].
  - destruct b as [|y b]; [discriminate|].
    destruct c as [|z c]; [discriminate|].
    destruct (Z.eq_dec x y) as [->|Hxy], (Z.eq_dec y z) as [->|Hyz].
    + simpl in *. rewrite Z.eqb_refl in *. simpl in *. eauto.
    + destruct (precedes_head _ _ _ _ _ Hyz Hbc) as (i & j & Hi & Hj & Hlt).
      eapply precedes_head_lt; eauto.
    + destruct (precedes_head _ _ _ _ _ Hxy Hab) as (i & j & Hi & Hj & Hlt).
      eapply precedes_head_lt; eauto.
    + destruct (precedes_head _ _ _ _ _ Hxy Hab) as (i & j & Hi & Hj & Hlt).
      destruct (precedes_head _ _ _ _ _ Hyz Hbc) as (j' & k & Hj' & Hk & Hlt').
      rewrite Hj in Hj'. injection Hj' as <-.
      eapply precedes_head_lt; eauto. lia.
Qed.

Lemma precedes_total alphabet : forall a b,
  over alphabet a -> over alphabet b -> a <> b ->
  (shortLexPrecedes a b alphabet = Some true /\
   shortLexPrecedes b a alphabet = Some false) \/
  (shortLexPrecedes a b alphabet = Some false /\
   shortLexPrecedes b a alphabet = Some true).
Proof.
  intros a b Ha. revert b. induction Ha as [|x a Hx Ha IH]; intros b Hb Hne.
  - destruct b; [contradiction | left; split; reflexivity].
  - destruct Hb as [|y b Hy Hb]; [right; split; reflexivity|].
    simpl. destruct (Z.eqb_spec x y) as [->|Hxy].
    + rewrite Z.eqb_refl. simpl. apply IH; [exact Hb | congruence].
    + destruct (Z.eqb_spec y x); [congruence|]. simpl.
      destruct (index_in _ _ Hx) as [i Hi], (index_in _ _ Hy) as [j Hj].
      rewrite Hi, Hj. simpl.
      assert (i <> j) by (intros ->; apply Hxy; eapply index_inj; eauto).
      destruct (Z.ltb_spec i j), (Z.ltb_spec j i); try lia; tauto.
Qed.

(** C8. On the words over a fixed alphabet [shortLexPrecedes] is a strict
    total order: no word precedes itself, the relation is transitive, and
    of two different words exactly one precedes the other.  (That the
    alphabet has no repeated letter is not needed.) *)
Theorem shortLexPrecedes_strict_total_order (alphabet a b c : list Z) :
  over alphabet a -> over alphabet b -> over alphabet c ->
  shortLexPrecedes a a alphabet = Some false /\
  (shortLexPrecedes a b alphabet = Some true ->
   shortLexPrecedes b c alphabet = Some true ->
   shortLexPrecedes a c alphabet = Some true) /\
  (a <> b ->
   (shortLexPrecedes a b alphabet = Some true /\
    shortLexPrecedes b a alphabet = Some false) \/
   (shortLexPrecedes a b alphabet = Some false /\
    shortLexPrecedes b a alphabet = Some true)).
Proof.
  intros Ha Hb Hc. split; [apply precedes_irrefl|]. split.
  - apply precedes_trans.
  - now apply precedes_total.
Qed.

Lemma shortLexPrecedes_strict_total_order_witness :
  let alphabet := [1; -1; 2; -2] in
  let a := [1; -2] in let b := [2] in let c := [2; 1; 1] in
  shortLexPrecedes a a alphabet = Some false /\
  (shortLexPrecedes a b alphabet = Some true ->
   shortLexPrecedes b c alphabet = Some true ->
   shortLexPrecedes a c alphabet = Some true) /\
  (a <> b ->
   (shortLexPrecedes a b alphabet = Some true /\
    shortLexPrecedes b a alphabet = Some false) \/
   (shortLexPrecedes a b alphabet = Some false /\
    shortLexPrecedes b a alphabet = Some true)).
Proof.
  apply shortLexPrecedes_strict_total_order;
    unfold over; repeat constructor; simpl; tauto.
Defined.

(** What the comparison computes is the dictionary order, in which a proper
    prefix comes first; the lengths are compared nowhere.  On words of one
    length it is the shortlex order. *)
Lemma shortlex_lt_same_length alphabet w0 w1 :
  length w0 = length w1 ->
  shortlex_lt alphabet w0 w1 = first_difference_smaller alphabet w0 w1.
Proof.
  intros Hlen. unfold shortlex_lt.
  now rewrite Hlen, Nat.ltb_irrefl, Nat.eqb_refl.
Qed.

Lemma precedes_same_length alphabet : forall w0 w1,
  over alphabet w0 -> over alphabet w1 -> length w0 = length w1 ->
  shortLexPrecedes w0 w1 alphabet = Some (shortlex_lt alphabet w0 w1).
Proof.
  intros w0 w1 H0 H1 Hlen. rewrite shortlex_lt_same_length by exact Hlen.
  revert w1 H1 Hlen.
  induction H0 as [|x w0 Hx H0 IH]; intros w1 H1 Hlen.
  - destruct w1; [reflexivity | discriminate].
  - destruct H1 as [|y w1 Hy H1]; [discriminate|].
    injection Hlen as Hlen. simpl.
    destruct (x =? y); simpl; [now apply IH|].
    destruct (index_in _ _ Hx) as [i ->], (index_in _ _ Hy) as [j ->].
    reflexivity.
Qed.

Lemma precedes_empty alphabet x w :
  shortLexPrecedes [] (x :: w) alphabet = Some true.
Proof. reflexivity. Qed.

(** C1 at the input [w0 = [1, 1]], [w1 = [-1]], [alphabet = [1, -1]]:
    [shortLexPrecedes] answers [True] although [w1] is the shorter word and
    so comes first in shortlex order; and with the two words exchanged it
    answers [False]. *)
Theorem shortLexPrecedes_ignores_length :
  shortLexPrecedes [1; 1] [-1] [1; -1] = Some true /\
  shortlex_lt [1; -1] [1; 1] [-1] = false /\
  shortLexPrecedes [-1] [1; 1] [1; -1] = Some false /\
  shortlex_lt [1; -1] [-1] [1; 1] = true.
Proof. repeat split. Qed.

End ShortLex.

(** ** [odometerSuccessor] *)

Module Odometer.
Import Py PyFacts.

Lemma odometerSuccessor_fuel_step fuel lst alphabet :
  lst <> [] ->
  odometerSuccessor_fuel (S fuel) lst alphabet
  = (x <- get lst (-1) ;;
     z <- get alphabet (-1) ;;
     if negb (x =? z)
     then i <- index alphabet x ;;
          y <- get alphabet (i + 1) ;;
          Some (slice_to lst (len lst - 1) ++ [y])
     else r <- odometerSuccessor_fuel fuel
                 (slice_to lst (len lst - 1)) alphabet ;;
          a0 <- get alphabet 0 ;;
          Some (r ++ [a0])).
Proof. destruct lst; [contradiction | reflexivity]. Qed.

Lemma odometerSuccessor_fuel_snoc fuel lst x alphabet :
  odometerSuccessor_fuel (S fuel) (lst ++ [x]) alphabet
  = (z <- get alphabet (-1) ;;
     if negb (x =? z)
     then i <- index alphabet x ;;
          y <- get alphabet (i + 1) ;;
          Some (lst ++ [y])
     else r <- odometerSuccessor_fuel fuel lst alphabet ;;
          a0 <- get alphabet 0 ;;
          Some (r ++ [a0])).
Proof.
  rewrite odometerSuccessor_fuel_step by (destruct lst; discriminate).
  now rewrite get_last, slice_to_init.
Qed.

Lemma value_snoc alphabet w x :
  value alphabet (w ++ [x]) = value alphabet w * len alphabet + digit alphabet x.
Proof. unfold value. now rewrite fold_left_app. Qed.

Section Alphabet.

Variable alphabet : list Z.
Hypothesis alphabet_nodup : NoDup alphabet.
Hypothesis alphabet_nonempty : alphabet <> [].

Let m := len alphabet.

Lemma m_pos : 1 <= m.
Proof.
  assert (length alphabet <> 0%nat)
    by (rewrite length_zero_iff_nil; exact alphabet_nonempty).
  unfold m, len. lia.
Qed.

Lemma letter_at i :
  0 <= i < m ->
  exists y, get alphabet i = Some y /\ index alphabet y = Some i /\
            In y alphabet.
Proof.
  intros Hi. rewrite get_nonneg by lia.
  destruct (nth_error alphabet (Z.to_nat i)) as [y|] eqn:E.
  - exists y. split; [reflexivity|]. split.
    + rewrite (index_nth_error _ _ _ alphabet_nodup E). f_equal. lia.
    + eapply nth_error_In; eauto.
  - apply nth_error_None in E. unfold m, len in Hi. lia.
Qed.

Lemma last_letter :
  exists z, get alphabet (-1) = Some z /\ index alphabet z = Some (m - 1) /\
            In z alphabet.
Proof.
  destruct (exists_last alphabet_nonempty) as (l & z & E).
  exists z. unfold m. rewrite E at 1. rewrite get_last. split; [reflexivity|].
  assert (Hn : nth_error alphabet (length l) = Some z).
  { rewrite E, nth_error_app2 by lia. now rewrite Nat.sub_diag. }
  split.
  - rewrite (index_nth_error _ _ _ alphabet_nodup Hn). f_equal.
    rewrite E, len_app. unfold len. simpl. lia.
  - eapply nth_error_In; eauto.
Qed.

Lemma digit_index x i : index alphabet x = Some i -> digit alphabet x = i.
Proof. unfold digit. now intros ->. Qed.

Lemma digit_bound x : In x alphabet -> 0 <= digit alphabet x < m.
Proof.
  intros H. destruct (index_in _ _ H) as [i Hi].
  rewrite (digit_index _ _ Hi). now apply index_some in Hi.
Qed.

Lemma digit_inj x y :
  In x alphabet -> In y alphabet -> digit alphabet x = digit alphabet y ->
  x = y.
Proof.
  intros Hx Hy E.
  destruct (index_in _ _ Hx) as [i Hi], (index_in _ _ Hy) as [j Hj].
  rewrite (digit_index _ _ Hi), (digit_index _ _ Hj) in E. subst j.
  eapply index_inj; eauto.
Qed.

Lemma value_bound w :
  over alphabet w -> 0 <= value alphabet w < m ^ len w.
Proof.
  pose proof m_pos as Hm.
  induction w as [|x w IH] using rev_ind; intros Hw.
  - change (0 <= 0 < m ^ 0). lia.
  - apply over_app in Hw. destruct Hw as [Hw Hx].
    apply over_cons in Hx. destruct Hx as [Hx _].
    specialize (IH Hw). pose proof (digit_bound _ Hx) as Hd.
    rewrite value_snoc, len_app. change (len [x]) with 1.
    rewrite Z.pow_add_r, Z.pow_1_r by (try apply len_nonneg; lia).
    fold m. nia.
Qed.

Lemma value_inj : forall w1 w2,
  over alphabet w1 -> over alphabet w2 -> length w1 = length w2 ->
  value alphabet w1 = value alphabet w2 -> w1 = w2.
Proof.
  pose proof m_pos as Hm.
  induction w1 as [|x w1 IH] using rev_ind; intros w2 H1 H2 Hlen E.
  - destruct w2; [reflexivity | discriminate].
  - destruct w2 as [|y w2 _] using rev_ind.
    + rewrite length_app in Hlen. simpl in Hlen. lia.
    + rewrite !length_app in Hlen. simpl in Hlen.
      apply over_app in H1, H2. destruct H1 as [H1 Hx], H2 as [H2 Hy].
      apply over_cons in Hx, Hy. destruct Hx as [Hx _], Hy as [Hy _].
      rewrite !value_snoc in E. fold m in E.
      pose proof (digit_bound _ Hx). pose proof (digit_bound _ Hy).
      assert (value alphabet w1 = value alphabet w2) by nia.
      assert (digit alphabet x = digit alphabet y) by nia.
      f_equal.
      * apply IH; auto; lia.
      * f_equal. now apply digit_inj.
Qed.

(** The odometer adds one to the value of the word, modulo the number of
    words of that length. *)
Lemma odometerSuccessor_fuel_spec : forall w fuel,
  over alphabet w -> (length w <= fuel)%nat ->
  exists w', odometerSuccessor_fuel fuel w alphabet = Some w' /\
             over alphabet w' /\ length w' = length w /\
             value alphabet w' = (value alphabet w + 1) mod m ^ len w.
Proof.
  pose proof m_pos as Hm.
  destruct last_letter as (z & Hz & HIz & Hinz).
  destruct (letter_at 0) as (a0 & Ha0 & HIa0 & Hina0); [lia|].
  induction w as [|x w IH] using rev_ind; intros fuel Hw Hfuel.
  - exists []. destruct fuel; repeat split; constructor.
  - apply over_app in Hw. destruct Hw as [Hw Hx].
    apply over_cons in Hx. destruct Hx as [Hx _].
    rewrite length_app in Hfuel. simpl in Hfuel.
    destruct fuel as [|fuel]; [lia|].
    rewrite odometerSuccessor_fuel_snoc, Hz. simpl bind.
    pose proof (value_bound _ Hw) as Hvw.
    rewrite value_snoc, len_app. change (len [x]) with 1.
    rewrite Z.pow_add_r, Z.pow_1_r by (try apply len_nonneg; lia).
    fold m.
    destruct (Z.eqb_spec x z) as [->|Hxz]; simpl negb; cbv iota.
    + destruct (IH fuel Hw) as (w' & -> & Hw' & Hlen & Hval); [lia|].
      simpl bind. rewrite Ha0. simpl bind.
      exists (w' ++ [a0]). split; [reflexivity|]. split.
      { apply over_app. split; [exact Hw'|]. now repeat constructor. }
      split; [rewrite !length_app; simpl; lia|].
      rewrite value_snoc, Hval, (digit_index _ _ HIa0), (digit_index _ _ HIz).
      fold m. replace (value alphabet w * m + (m - 1) + 1)
        with ((value alphabet w + 1) * m) by lia.
      rewrite Z.mul_mod_distr_r by lia. lia.
    + destruct (index_in _ _ Hx) as [i Hi]. rewrite Hi. simpl bind.
      pose proof (index_some _ _ _ Hi) as [Hib _]. fold m in Hib.
      assert (i <> m - 1).
      { intros ->. apply Hxz. eapply index_inj; eauto. }
      destruct (letter_at (i + 1)) as (y & Hy & HIy & Hiny); [lia|].
      rewrite Hy. simpl bind.
      exists (w ++ [y]). split; [reflexivity|]. split.
      { apply over_app. split; [exact Hw|]. now repeat constructor. }
      split; [rewrite !length_app; reflexivity|].
      rewrite value_snoc, (digit_index _ _ HIy), (digit_index _ _ Hi).
      fold m. rewrite Z.mod_small by nia. lia.
Qed.

Lemma odometerSuccessor_spec w :
  over alphabet w ->
  exists w', odometerSuccessor w alphabet = Some w' /\
             over alphabet w' /\ length w' = length w /\
             value alphabet w' = (value alphabet w + 1) mod m ^ len w.
Proof.
  intros Hw. now apply odometerSuccessor_fuel_spec.
Qed.

End Alphabet.

(** C10. Over a non-empty alphabet without repeated letters,
    [odometerSuccessor(w, A)] returns, for every word [w] over [A], a word
    of the length of [w] whose letters belong to [A]; and
    [odometerSuccessor([], A) == []]. *)
Theorem odometerSuccessor_same_length (alphabet w : list Z) :
  NoDup alphabet -> alphabet <> [] -> over alphabet w ->
  (exists w', odometerSuccessor w alphabet = Some w' /\
              length w' = length w /\ over alphabet w') /\
  odometerSuccessor [] alphabet = Some [].
Proof.
  intros Hnd Hne Hw. split; [|reflexivity].
  destruct (odometerSuccessor_spec alphabet Hnd Hne w Hw)
    as (w' & E & Hover & Hlen & _).
  eauto.
Qed.

Lemma odometerSuccessor_same_length_witness :
  (exists w', odometerSuccessor [1; -2; -2] [1; -1; 2; -2] = Some w' /\
              length w' = length [1; -2; -2] /\ over [1; -1; 2; -2] w') /\
  odometerSuccessor [] [1; -1; 2; -2] = Some [].
Proof.
  apply odometerSuccessor_same_length.
  - repeat constructor; simpl; intuition lia.
  - discriminate.
  - unfold over; repeat constructor; simpl; tauto.
Defined.

End Odometer.

(** ** Enumerating words: the odometer cycle and [shortLexSuccessor] *)

Module Enumeration.
Import Py PyFacts Odometer.

Section Alphabet.

Variable alphabet : list Z.
Variable a0 : Z.
Hypothesis alphabet_nodup : NoDup alphabet.
Hypothesis alphabet_first : get alphabet 0 = Some a0.

Let m := len alphabet.

Lemma alphabet_nonempty : alphabet <> [].
Proof. intros E. rewrite E in alphabet_first. discriminate. Qed.

Lemma first_letter : index alphabet a0 = Some 0 /\ In a0 alphabet.
Proof.
  destruct alphabet as [|a r]; [discriminate|].
  unfold get in alphabet_first. simpl in alphabet_first.
  injection alphabet_first as ->. simpl. rewrite Z.eqb_refl. auto.
Qed.

Let m_pos : 1 <= m := m_pos alphabet alphabet_nonempty.

Lemma over_repeat L : over alphabet (repeat a0 L).
Proof.
  induction L; simpl; constructor; [apply first_letter | assumption].
Qed.

Lemma value_repeat L : value alphabet (repeat a0 L) = 0.
Proof.
  induction L as [|L IH]; [reflexivity|].
  change (repeat a0 (S L)) with (a0 :: repeat a0 L).
  rewrite repeat_cons, value_snoc, IH.
  rewrite (digit_index _ _ _ (proj1 first_letter)). lia.
Qed.

Lemma value_cons x w :
  value alphabet (x :: w) = digit alphabet x * m ^ len w + value alphabet w.
Proof.
  induction w as [|y w IH] using rev_ind.
  - unfold value. simpl. change (len (@nil Z)) with 0. lia.
  - rewrite app_comm_cons, !value_snoc, IH, len_app. change (len [y]) with 1.
    rewrite Z.pow_add_r, Z.pow_1_r by (try apply len_nonneg; lia).
    fold m. lia.
Qed.

(** *** The odometer cycle *)

Lemma odometer_visit_value L : forall k,
  exists w, odometer_visit alphabet a0 L k = Some w /\ over alphabet w /\ length w = L /\
            value alphabet w = Z.of_nat k mod m ^ Z.of_nat L.
Proof.
  assert (Hpow : 0 < m ^ Z.of_nat L) by (apply Z.pow_pos_nonneg; lia).
  unfold odometer_visit. induction k as [|k (w & Hk & Hw & Hlen & Hval)].
  - exists (repeat a0 L). split; [reflexivity|].
    split; [apply over_repeat|]. split; [apply repeat_length|].
    rewrite value_repeat. now rewrite Z.mod_0_l by lia.
  - simpl iterate. rewrite Hk. simpl bind.
    destruct (odometerSuccessor_spec alphabet alphabet_nodup
                alphabet_nonempty w Hw) as (w' & -> & Hw' & Hlen' & Hval').
    exists w'. split; [reflexivity|]. split; [exact Hw'|].
    split; [lia|].
    rewrite Hval', Hval.
    replace (len w) with (Z.of_nat L) by (unfold len; lia). fold m.
    rewrite Z.add_mod_idemp_l by lia. f_equal. lia.
Qed.

Lemma odometer_cycle_here L :
  let N := Z.to_nat (m ^ Z.of_nat L) in
  (forall w, over alphabet w -> length w = L ->
     exists k, (k < N)%nat /\ odometer_visit alphabet a0 L k = Some w /\
       forall k', (k' < N)%nat -> odometer_visit alphabet a0 L k' = Some w -> k' = k) /\
  odometer_visit alphabet a0 L N = Some (repeat a0 L).
Proof.
  intros N. unfold N.
  assert (Hpow : 0 < m ^ Z.of_nat L) by (apply Z.pow_pos_nonneg; lia).
  split.
  - intros w Hw Hlen.
    pose proof (value_bound alphabet alphabet_nonempty w Hw)
      as Hb.
    replace (len w) with (Z.of_nat L) in Hb by (unfold len; lia).
    fold m in Hb.
    exists (Z.to_nat (value alphabet w)). split; [lia|]. split.
    + destruct (odometer_visit_value L (Z.to_nat (value alphabet w)))
        as (w' & Hk & Hw' & Hlen' & Hval). rewrite Hk. f_equal.
      apply (value_inj alphabet alphabet_nonempty);
        auto; [lia|].
      rewrite Hval, Z.mod_small; lia.
    + intros k' Hk' Hvis.
      destruct (odometer_visit_value L k') as (w' & Hk & _ & _ & Hval).
      rewrite Hk in Hvis. injection Hvis as ->.
      rewrite Z.mod_small in Hval by lia. lia.
  - destruct (odometer_visit_value L (Z.to_nat (m ^ Z.of_nat L)))
      as (w' & Hk & Hw' & Hlen' & Hval).
    rewrite Hk. f_equal.
    apply (value_inj alphabet alphabet_nonempty); auto.
    + apply over_repeat.
    + now rewrite repeat_length.
    + rewrite Hval, value_repeat, Z2Nat.id by lia.
      apply Z.mod_same. lia.
Qed.

(** *** The shortlex successor *)

Lemma isAllLastLetter_loop_spec z :
  get alphabet (-1) = Some z ->
  forall suf pre b,
    isAllLastLetter_loop (pre ++ suf) alphabet
      (range (len pre) (len (pre ++ suf))) b
    = Some (b && forallb (fun x => x =? z) suf).
Proof.
  intros Hz. induction suf as [|x suf IH]; intros pre b.
  - rewrite app_nil_r, range_nil by lia. simpl. now rewrite andb_true_r.
  - pose proof (len_nonneg pre). pose proof (len_nonneg suf).
    rewrite range_cons by (rewrite len_app, len_cons; lia).
    simpl isAllLastLetter_loop.
    rewrite get_nonneg by lia.
    replace (Z.to_nat (len pre)) with (length pre) by (unfold len; lia).
    rewrite nth_error_app2, Nat.sub_diag by lia. simpl nth_error.
    rewrite Hz. simpl bind.
    replace (pre ++ x :: suf) with ((pre ++ [x]) ++ suf)
      by (now rewrite <- app_assoc).
    replace (len pre + 1) with (len (pre ++ [x])) by (now rewrite len_app).
    rewrite IH. f_equal. simpl forallb.
    destruct (x =? z), b; reflexivity.
Qed.

Lemma value_max z w :
  index alphabet z = Some (m - 1) -> over alphabet w ->
  (forallb (fun x => x =? z) w = true <->
   value alphabet w = m ^ len w - 1).
Proof.
  intros Hz. induction w as [|x w IH] using rev_ind; intros Hw.
  - change (true = true <-> 0 = m ^ 0 - 1). split; [lia | reflexivity].
  - apply over_app in Hw. destruct Hw as [Hw Hx].
    apply over_cons in Hx. destruct Hx as [Hx _].
    pose proof (value_bound alphabet alphabet_nonempty w Hw) as Hb.
    pose proof (digit_bound alphabet x Hx) as Hd. fold m in Hb, Hd.
    rewrite forallb_app, andb_true_iff, (IH Hw), value_snoc, len_app.
    change (len [x]) with 1.
    rewrite Z.pow_add_r, Z.pow_1_r by (try apply len_nonneg; lia).
    fold m. simpl forallb. rewrite andb_true_r, Z.eqb_eq. split.
    + intros [E ->]. rewrite (digit_index _ _ _ Hz). nia.
    + intros E. assert (value alphabet w = m ^ len w - 1) by nia.
      split; [assumption|].
      assert (Hdx : digit alphabet x = m - 1) by nia.
      destruct (index_in _ _ Hx) as [i Hi].
      rewrite (digit_index _ _ _ Hi) in Hdx. subst i.
      eapply index_inj; eauto.
Qed.

Lemma words_shorter_nonneg L : 0 <= words_shorter m L.
Proof.
  induction L as [|L IH]; simpl; [lia|].
  assert (0 < m ^ Z.of_nat L) by (apply Z.pow_pos_nonneg; lia). lia.
Qed.

Lemma words_shorter_mono L1 L2 :
  (L1 < L2)%nat -> words_shorter m L1 + m ^ Z.of_nat L1 <= words_shorter m L2.
Proof.
  induction L2 as [|L2 IH]; intros H; [lia|].
  simpl words_shorter.
  assert (0 < m ^ Z.of_nat L2) by (apply Z.pow_pos_nonneg; lia).
  destruct (Nat.eq_dec L1 L2) as [->|]; [lia|].
  assert (words_shorter m L1 + m ^ Z.of_nat L1 <= words_shorter m L2)
    by (apply IH; lia).
  lia.
Qed.

Lemma rank_bound w :
  over alphabet w ->
  words_shorter m (length w) <= rank alphabet w
  < words_shorter m (length w) + m ^ len w.
Proof.
  intros Hw. pose proof (value_bound alphabet alphabet_nonempty w Hw) as Hb.
  unfold rank. fold m in Hb |- *. lia.
Qed.

Lemma rank_inj w1 w2 :
  over alphabet w1 -> over alphabet w2 ->
  rank alphabet w1 = rank alphabet w2 -> w1 = w2.
Proof.
  intros H1 H2 E.
  pose proof (rank_bound w1 H1) as B1. pose proof (rank_bound w2 H2) as B2.
  assert (Hlen : length w1 = length w2).
  { destruct (Nat.lt_trichotomy (length w1) (length w2)) as [Hlt|[Heq|Hlt]];
      [|exact Heq|]; apply words_shorter_mono in Hlt; unfold len in *; lia. }
  apply (value_inj alphabet alphabet_nonempty); auto.
  unfold rank in E. rewrite Hlen in E. lia.
Qed.

(** The shortlex successor of a word over the alphabet is the word over the
    alphabet with the next rank. *)
Lemma shortLexSuccessor_spec w :
  over alphabet w ->
  exists w', shortLexSuccessor w alphabet = Some w' /\ over alphabet w' /\
             rank alphabet w' = rank alphabet w + 1.
Proof.
  intros Hw.
  destruct first_letter as [HIa0 Hina0].
  destruct (last_letter alphabet alphabet_nodup alphabet_nonempty)
    as (z & Hz & HIz & Hinz). fold m in HIz.
  destruct w as [|x w].
  - exists [a0]. simpl. rewrite alphabet_first. simpl.
    split; [reflexivity|]. split; [now repeat constructor|].
    unfold rank, value. simpl. rewrite (digit_index _ _ _ HIa0). lia.
  - remember (x :: w) as v eqn:Ev.
    assert (Hsucc : shortLexSuccessor v alphabet
      = (isAllLastLetter <-
           isAllLastLetter_loop v alphabet (range 0 (len v)) true ;;
         if (isAllLastLetter : bool)
         then a <- get alphabet 0 ;;
              r <- odometerSuccessor v alphabet ;;
              Some ([a] ++ r)
         else odometerSuccessor v alphabet)) by (subst v; reflexivity).
    rewrite Hsucc. clear Hsucc Ev x w.
    pose proof (isAllLastLetter_loop_spec z Hz v [] true) as Hloop.
    simpl app in Hloop. change (len (@nil Z)) with 0 in Hloop.
    rewrite Hloop. simpl bind. clear Hloop.
    destruct (odometerSuccessor_spec alphabet alphabet_nodup
                alphabet_nonempty v Hw) as (r & Hr & Hor & Hlen & Hval).
    fold m in Hval.
    pose proof (value_bound alphabet alphabet_nonempty v Hw) as Hb.
    fold m in Hb.
    pose proof (value_max z v HIz Hw) as Hmax.
    destruct (forallb (fun x => x =? z) v).
    + rewrite alphabet_first, Hr. simpl bind.
      exists (a0 :: r). split; [reflexivity|].
      split; [now constructor|].
      assert (E : value alphabet v = m ^ len v - 1) by now apply Hmax.
      unfold rank. rewrite value_cons, Hval, (digit_index _ _ _ HIa0), E.
      replace (m ^ len v - 1 + 1) with (m ^ len v) by lia.
      rewrite Z.mod_same by lia.
      simpl length. rewrite Hlen. simpl words_shorter.
      unfold m, len. lia.
    + rewrite Hr. exists r. split; [reflexivity|]. split; [exact Hor|].
      assert (value alphabet v <> m ^ len v - 1)
        by (intros E; apply Hmax in E; discriminate).
      unfold rank. rewrite Hlen, Hval, Z.mod_small by lia. lia.
Qed.

Lemma shortLex_visit_rank : forall k,
  exists w, shortLex_visit alphabet k = Some w /\ over alphabet w /\
            rank alphabet w = Z.of_nat k.
Proof.
  unfold shortLex_visit. induction k as [|k (w & Hk & Hw & Hrank)].
  - exists []. split; [reflexivity|]. split; [constructor | reflexivity].
  - simpl iterate. rewrite Hk. simpl bind.
    destruct (shortLexSuccessor_spec w Hw) as (w' & -> & Hw' & Hrank').
    exists w'. split; [reflexivity|]. split; [exact Hw'|]. lia.
Qed.

Lemma shortLex_visit_each_once w :
  over alphabet w ->
  exists k, shortLex_visit alphabet k = Some w /\
            forall k', shortLex_visit alphabet k' = Some w -> k' = k.
Proof.
  intros Hw. pose proof (rank_bound w Hw) as Hb.
  pose proof (words_shorter_nonneg (length w)) as Hn.
  exists (Z.to_nat (rank alphabet w)). split.
  - destruct (shortLex_visit_rank (Z.to_nat (rank alphabet w)))
      as (w' & Hk & Hw' & Hrank).
    rewrite Hk. f_equal. apply rank_inj; auto. lia.
  - intros k' Hk'.
    destruct (shortLex_visit_rank k') as (w' & Hk & _ & Hrank).
    rewrite Hk in Hk'. injection Hk' as ->. lia.
Qed.

End Alphabet.

(** C3. Let [A] be a non-empty alphabet of [m] letters without repetition,
    and let [L >= 1] be a length.  Starting from the word of length [L]
    whose letters are all [A[0]], every application of the odometer
    successor returns a word of length [L] over [A]; every word of length
    [L] over [A] is visited exactly once among the first [m^L] words (the
    start and [m^L - 1] applications); and the [m^L]-th application returns
    the starting word. *)
Theorem odometer_cycle (alphabet : list Z) (a0 : Z) (L : nat) :
  NoDup alphabet -> Py.get alphabet 0 = Some a0 -> (1 <= L)%nat ->
  let N := Z.to_nat (len alphabet ^ Z.of_nat L) in
  (forall k, exists w, odometer_visit alphabet a0 L k = Some w /\
                       over alphabet w /\ length w = L) /\
  (forall w, over alphabet w -> length w = L ->
     exists k, (k < N)%nat /\ odometer_visit alphabet a0 L k = Some w /\
       forall k', (k' < N)%nat -> odometer_visit alphabet a0 L k' = Some w ->
                  k' = k) /\
  odometer_visit alphabet a0 L N = Some (repeat a0 L).
Proof.
  intros Hnd H0 _ N. split.
  - intros k.
    destruct (odometer_visit_value alphabet a0 Hnd H0 L k)
      as (w & Hk & Hw & Hlen & _).
    eauto.
  - now apply odometer_cycle_here.
Qed.

Lemma odometer_cycle_witness :
  let alphabet := [1; -1] in
  let N := Z.to_nat (len alphabet ^ Z.of_nat 3) in
  (forall k, exists w, odometer_visit alphabet 1 3 k = Some w /\
                       over alphabet w /\ length w = 3%nat) /\
  (forall w, over alphabet w -> length w = 3%nat ->
     exists k, (k < N)%nat /\ odometer_visit alphabet 1 3 k = Some w /\
       forall k', (k' < N)%nat -> odometer_visit alphabet 1 3 k' = Some w ->
                  k' = k) /\
  odometer_visit alphabet 1 3 N = Some (repeat 1 3).
Proof.
  apply odometer_cycle.
  - repeat constructor; simpl; intuition lia.
  - reflexivity.
  - lia.
Defined.

Example odometer_binary_cycle :
  map (odometer_visit [0; 1] 0 2) (seq 0 5)
  = map Some [[0; 0]; [0; 1]; [1; 0]; [1; 1]; [0; 0]].
Proof. reflexivity. Qed.

(** Over a non-empty alphabet without repeated letters, iterating
    [shortLexSuccessor] from the empty word never raises, stays among the
    words over the alphabet, and reaches every such word exactly once. *)
Theorem shortLexSuccessor_enumerates (alphabet : list Z) :
  NoDup alphabet -> alphabet <> [] ->
  (forall k, exists w, shortLex_visit alphabet k = Some w /\ over alphabet w) /\
  (forall w, over alphabet w ->
     exists k, shortLex_visit alphabet k = Some w /\
               forall k', shortLex_visit alphabet k' = Some w -> k' = k).
Proof.
  intros Hnd Hne.
  destruct (letter_at alphabet Hnd 0) as (a0 & Ha0 & _).
  { pose proof (m_pos alphabet Hne). lia. }
  split.
  - intros k.
    destruct (shortLex_visit_rank alphabet a0 Hnd Ha0 k) as (w & Hk & Hw & _).
    eauto.
  - intros w Hw. exact (shortLex_visit_each_once alphabet a0 Hnd Ha0 w Hw).
Qed.

Lemma shortLexSuccessor_enumerates_witness :
  (forall k, exists w, shortLex_visit [1; -1] k = Some w /\ over [1; -1] w) /\
  (forall w, over [1; -1] w ->
     exists k, shortLex_visit [1; -1] k = Some w /\
               forall k', shortLex_visit [1; -1] k' = Some w -> k' = k).
Proof.
  apply shortLexSuccessor_enumerates.
  - repeat constructor; simpl; intuition lia.
  - discriminate.
Defined.

Example shortLexSuccessor_six_steps :
  map (shortLex_visit [1; -1]) (seq 0 6)
  = map Some [[]; [1]; [-1]; [1; 1]; [1; -1]; [-1; 1]].
Proof. reflexivity. Qed.

(** C2 at the alphabet [[1, -1]]: the successor of [[-1]] is [[1, 1]], the
    third word of the enumeration after the empty word, and
    [shortLexPrecedes([-1], [1, 1], [1, -1])] is [False]; it is the longer
    word that the comparison puts first. *)
Theorem shortLexSuccessor_step_not_preceding :
  shortLex_visit [1; -1] 2 = Some [-1] /\
  shortLexSuccessor [-1] [1; -1] = Some [1; 1] /\
  shortLexPrecedes [-1] [1; 1] [1; -1] = Some false /\
  shortLexPrecedes [1; 1] [-1] [1; -1] = Some true.
Proof. repeat split. Qed.

End Enumeration.

(** ** [cyclicShifts] *)

Module CyclicShifts.
Import Py PyFacts.

Lemma app_inj_length {A : Type} : forall (a1 b1 a2 b2 : list A),
  length a1 = length b1 -> a1 ++ a2 = b1 ++ b2 -> a1 = b1 /\ a2 = b2.
Proof.
  induction a1 as [|x a1 IH]; intros [|y b1] a2 b2 Hlen E;
    try discriminate; simpl in *; [auto|].
  injection E as -> E. injection Hlen as Hlen.
  destruct (IH _ _ _ Hlen E) as [-> ->]. auto.
Qed.

Lemma firstn_add {A : Type} : forall (i j : nat) (w : list A),
  firstn (i + j) w = firstn i w ++ firstn j (skipn i w).
Proof.
  induction i as [|i IH]; intros j w; [reflexivity|].
  destruct w as [|x w]; simpl.
  - now rewrite firstn_nil.
  - f_equal. apply IH.
Qed.

(** For shifts within the word the slices are [skipn] and [firstn]. *)
Lemma shift_nat w (i : nat) :
  (i <= length w)%nat ->
  cyclicShiftLeft w (Z.of_nat i) = skipn i w ++ firstn i w.
Proof.
  intros H. unfold cyclicShiftLeft.
  now rewrite slice_from_nat, slice_to_nat.
Qed.

Lemma shift_zero w : cyclicShiftLeft w 0 = w.
Proof.
  change 0 with (Z.of_nat 0). rewrite shift_nat by lia.
  simpl. apply app_nil_r.
Qed.

Lemma shift_full w : cyclicShiftLeft w (len w) = w.
Proof.
  unfold len. rewrite shift_nat by lia.
  now rewrite skipn_all, firstn_all.
Qed.

Lemma shift_length w i :
  0 <= i <= len w -> length (cyclicShiftLeft w i) = length w.
Proof.
  intros H. replace i with (Z.of_nat (Z.to_nat i)) by lia.
  rewrite shift_nat by (unfold len in H; lia).
  rewrite length_app, length_skipn, length_firstn. unfold len in H. lia.
Qed.

Lemma shift_compose w i j :
  0 <= i -> 0 <= j -> i + j <= len w ->
  cyclicShiftLeft (cyclicShiftLeft w i) j = cyclicShiftLeft w (i + j).
Proof.
  intros Hi Hj Hij. unfold len in Hij.
  replace i with (Z.of_nat (Z.to_nat i)) by lia.
  replace j with (Z.of_nat (Z.to_nat j)) by lia.
  rewrite <- Nat2Z.inj_add.
  assert (Hi' : (Z.to_nat i <= length w)%nat) by lia.
  assert (Hij' : (Z.to_nat i + Z.to_nat j <= length w)%nat) by lia.
  revert Hi' Hij'. generalize (Z.to_nat i) (Z.to_nat j). clear.
  intros i j Hi Hij.
  rewrite (shift_nat w i), (shift_nat w (i + j)) by lia.
  rewrite shift_nat
    by (rewrite length_app, length_skipn, length_firstn; lia).
  rewrite skipn_app, firstn_app, length_skipn.
  replace (j - (length w - i))%nat with O by lia.
  simpl. rewrite app_nil_r, skipn_skipn, <- app_assoc.
  rewrite (Nat.add_comm j i). f_equal. symmetry. apply firstn_add.
Qed.

Lemma shift_inj w1 w2 i :
  length w1 = length w2 -> 0 <= i <= len w1 ->
  cyclicShiftLeft w1 i = cyclicShiftLeft w2 i -> w1 = w2.
Proof.
  intros Hlen Hi. unfold len in Hi.
  replace i with (Z.of_nat (Z.to_nat i)) by lia.
  rewrite !shift_nat by lia. intros E.
  apply app_inj_length in E; [|rewrite !length_skipn; lia].
  destruct E as [E1 E2].
  rewrite <- (firstn_skipn (Z.to_nat i) w1), <- (firstn_skipn (Z.to_nat i) w2).
  congruence.
Qed.

(** The loop stops at the first index [p] whose shift is the word itself, or
    runs to the end. *)
Lemma cyclicShifts_loop_spec w : forall (k : nat) a shifts,
  a + Z.of_nat k = len w -> 1 <= a ->
  exists p, a <= p <= len w /\
    cyclicShifts_loop w (range a (len w)) shifts
    = shifts ++ map (cyclicShiftLeft w) (range a p) /\
    (forall i, a <= i < p -> cyclicShiftLeft w i <> w) /\
    (p < len w -> cyclicShiftLeft w p = w).
Proof.
  induction k as [|k IH]; intros a shifts Hk Ha.
  - exists a. rewrite !range_nil by lia. simpl. rewrite app_nil_r.
    repeat split; try lia.
  - rewrite range_cons by lia. simpl cyclicShifts_loop.
    destruct (list_eqb (cyclicShiftLeft w a) w) eqn:E.
    + exists a. rewrite range_nil by lia. simpl. rewrite app_nil_r.
      apply list_eqb_eq in E. repeat split; try lia. intros _. exact E.
    + apply list_eqb_neq in E.
      destruct (IH (a + 1) (shifts ++ [cyclicShiftLeft w a]))
        as (p & Hp & Hloop & Hmin & Hfix); [lia | lia |].
      exists p. split; [lia|]. split.
      * rewrite Hloop, (range_cons a p) by lia.
        now rewrite <- app_assoc.
      * split; [|exact Hfix].
        intros i Hi. destruct (Z.eq_dec i a) as [->|]; [exact E|].
        apply Hmin. lia.
Qed.

(** The list of shifts is [shift 0, ..., shift (p-1)] for the least positive
    [p] whose shift is the word itself. *)
Lemma cyclicShifts_period w :
  w <> [] ->
  exists p, 1 <= p <= len w /\
    cyclicShifts w = map (cyclicShiftLeft w) (range 0 p) /\
    (forall i, 1 <= i < p -> cyclicShiftLeft w i <> w) /\
    cyclicShiftLeft w p = w.
Proof.
  intros Hne.
  assert (Hlen : 1 <= len w).
  { unfold len. destruct w; [contradiction | simpl length; lia]. }
  destruct (cyclicShifts_loop_spec w (Z.to_nat (len w - 1)) 1 [w])
    as (p & Hp & Hloop & Hmin & Hfix); [lia | lia |].
  exists p. split; [lia|]. split; [|split; [exact Hmin|]].
  - unfold cyclicShifts. rewrite Hloop, (range_cons 0 p) by lia.
    simpl. now rewrite shift_zero.
  - destruct (Z.eq_dec p (len w)) as [->|]; [apply shift_full|].
    apply Hfix. lia.
Qed.

Lemma shift_multiple w p :
  0 <= p -> cyclicShiftLeft w p = w ->
  forall k : nat, Z.of_nat k * p <= len w ->
  cyclicShiftLeft w (Z.of_nat k * p) = w.
Proof.
  intros Hp Hfix. induction k as [|k IH]; intros Hk.
  - apply shift_zero.
  - replace (Z.of_nat (S k) * p) with (Z.of_nat k * p + p) by lia.
    rewrite <- shift_compose by nia.
    rewrite IH by nia. exact Hfix.
Qed.

Lemma period_divides w p :
  1 <= p <= len w -> cyclicShiftLeft w p = w ->
  (forall i, 1 <= i < p -> cyclicShiftLeft w i <> w) ->
  (p | len w).
Proof.
  intros Hp Hfix Hmin.
  pose proof (Z.div_mod (len w) p ltac:(lia)) as Hdm.
  pose proof (Z.mod_pos_bound (len w) p ltac:(lia)) as Hr.
  assert (Hq : 0 <= len w / p) by (apply Z.div_pos; lia).
  set (q := len w / p) in *. set (r := len w mod p) in *.
  assert (Hqfix : cyclicShiftLeft w (q * p) = w).
  { replace q with (Z.of_nat (Z.to_nat q)) by lia.
    apply shift_multiple; [lia | exact Hfix | nia]. }
  assert (Hrfix : cyclicShiftLeft w r = w).
  { rewrite <- Hqfix at 1. rewrite shift_compose by nia.
    replace (q * p + r) with (len w) by lia. apply shift_full. }
  destruct (Z.eq_dec r 0) as [Hr0|Hr0].
  - exists q. lia.
  - exfalso. apply (Hmin r); [lia | exact Hrfix].
Qed.

(** C6. For every non-empty word [w], [cyclicShifts(w)] has no repeated
    entry; its entry at position [j] is [w] rotated left by [j], so that it
    starts with [w] itself and consists of left-rotations of [w]; its length
    divides [len(w)]; and its length is [len(w)] whenever no rotation of [w]
    by [i] positions with [0 < i < len(w)] is [w]. *)
Theorem cyclicShifts_correct (w : list Z) :
  w <> [] ->
  NoDup (cyclicShifts w) /\
  (forall j, 0 <= j < len (cyclicShifts w) ->
     get (cyclicShifts w) j = Some (cyclicShiftLeft w j)) /\
  (exists rest, cyclicShifts w = w :: rest) /\
  (forall s, In s (cyclicShifts w) ->
     exists i, 0 <= i < len w /\ s = cyclicShiftLeft w i) /\
  (len (cyclicShifts w) | len w) /\
  ((forall i, 0 < i < len w -> cyclicShiftLeft w i <> w) ->
   len (cyclicShifts w) = len w).
Proof.
  intros Hne.
  destruct (cyclicShifts_period w Hne) as (p & Hp & Heq & Hmin & Hfix).
  assert (Hlen : len (cyclicShifts w) = p).
  { unfold len. rewrite Heq, length_map, length_range. lia. }
  rewrite Hlen. split; [|split; [|split; [|split; [|split]]]].
  - rewrite Heq. apply NoDup_map_NoDup_ForallPairs; [|apply NoDup_range].
    assert (Hlt : forall i j, 0 <= i < j -> j < p ->
              cyclicShiftLeft w i <> cyclicShiftLeft w j).
    { intros i j Hij Hj E. apply (Hmin (j - i)); [lia|].
      apply (shift_inj _ w i).
      - apply shift_length. lia.
      - unfold len. rewrite shift_length by lia. fold (len w). lia.
      - rewrite shift_compose by lia.
        replace (j - i + i) with j by lia. now symmetry. }
    intros i j Hi Hj E. apply in_range in Hi, Hj.
    destruct (Z.lt_trichotomy i j) as [H|[H|H]]; [|exact H|].
    + exfalso. apply (Hlt i j); auto; lia.
    + exfalso. apply (Hlt j i); auto; lia.
  - intros j Hj. rewrite get_nonneg, Heq by lia.
    rewrite nth_error_map. unfold range.
    rewrite nth_error_map, nth_error_seq.
    destruct (Nat.ltb_spec (Z.to_nat j) (Z.to_nat (p - 0))); [|lia].
    simpl. do 2 f_equal. lia.
  - rewrite Heq, (range_cons 0 p) by lia. simpl. rewrite shift_zero. eauto.
  - intros s Hs. rewrite Heq in Hs. apply in_map_iff in Hs.
    destruct Hs as (i & <- & Hi). apply in_range in Hi.
    exists i. split; [lia | reflexivity].
  - now apply period_divides.
  - intros Hnone. destruct (Z.eq_dec p (len w)) as [|Hneq]; [assumption|].
    exfalso. apply (Hnone p); [lia | exact Hfix].
Qed.

Lemma cyclicShifts_correct_witness :
  let w := [1; 2; 1; 2] in
  NoDup (cyclicShifts w) /\
  (forall j, 0 <= j < len (cyclicShifts w) ->
     get (cyclicShifts w) j = Some (cyclicShiftLeft w j)) /\
  (exists rest, cyclicShifts w = w :: rest) /\
  (forall s, In s (cyclicShifts w) ->
     exists i, 0 <= i < len w /\ s = cyclicShiftLeft w i) /\
  (len (cyclicShifts w) | len w) /\
  ((forall i, 0 < i < len w -> cyclicShiftLeft w i <> w) ->
   len (cyclicShifts w) = len w).
Proof. apply cyclicShifts_correct. discriminate. Defined.

End CyclicShifts.

(** ** [nondecreasingPartitions] *)

Module Partitions.
Import Py PyFacts.

Lemma NoDup_flat_map {A B : Type} (g : A -> list B) : forall l,
  NoDup l -> (forall i, In i l -> NoDup (g i)) ->
  (forall i j x, In i l -> In j l -> In x (g i) -> In x (g j) -> i = j) ->
  NoDup (flat_map g l).
Proof.
  induction l as [|i l IH]; intros Hl Hg Hdisj; simpl; [constructor|].
  inversion Hl as [|? ? Hnotin Hl']; subst.
  apply NoDup_app.
  - apply Hg. now left.
  - apply IH; auto.
    + intros j Hj. apply Hg. now right.
    + intros j1 j2 x H1 H2. apply Hdisj; now right.
  - intros x Hx Hx'. apply in_flat_map in Hx'. destruct Hx' as (j & Hj & Hxj).
    apply Hnotin. rewrite (Hdisj i j x); auto; [now left | now right].
Qed.

Lemma NoDup_map_cons (k : Z) ps : NoDup ps -> NoDup (map (fun p => [k] ++ p) ps).
Proof.
  intros H. apply NoDup_map_NoDup_ForallPairs; [|exact H].
  intros x y _ _ E. now injection E.
Qed.

Lemma total_nonneg p : Forall (fun x => 0 < x) p -> 0 <= total p.
Proof. induction 1; simpl; lia. Qed.

Lemma total_zero p : Forall (fun x => 0 < x) p -> total p = 0 -> p = [].
Proof.
  intros H E. destruct H as [|x p Hx Hp]; [reflexivity|].
  apply total_nonneg in Hp. simpl in E. lia.
Qed.

(** The inner loops append, for each [i], the partitions returned by the
    recursive call, each with [k] put in front. *)
Lemma startingWith_loop_eq rec k res : forall idxs partitions,
  (forall i, In i idxs -> rec i = Some (res i)) ->
  startingWith_loop rec k idxs partitions
  = Some (partitions ++ flat_map (fun i => map (fun p => [k] ++ p) (res i)) idxs).
Proof.
  induction idxs as [|i idxs IH]; intros partitions Hrec; simpl.
  - now rewrite app_nil_r.
  - rewrite (Hrec i) by now left. simpl bind.
    rewrite IH by (intros j Hj; apply Hrec; now right).
    now rewrite <- app_assoc.
Qed.

Lemma nondecreasingPartitions_loop_eq fuel n res : forall idxs partitions,
  (forall i, In i idxs ->
     nondecreasingPartitionsStartingWith fuel i n = Some (res i)) ->
  nondecreasingPartitions_loop fuel n idxs partitions
  = Some (partitions ++ flat_map res idxs).
Proof.
  induction idxs as [|i idxs IH]; intros partitions Hrec; simpl.
  - now rewrite app_nil_r.
  - rewrite (Hrec i) by now left. simpl bind.
    rewrite IH by (intros j Hj; apply Hrec; now right).
    now rewrite <- app_assoc.
Qed.

Lemma startingWith_correct : forall fuel k n,
  1 <= k -> 1 <= n -> (Z.to_nat n <= fuel)%nat ->
  exists ps, nondecreasingPartitionsStartingWith fuel k n = Some ps /\
             starting_with_spec k n ps.
Proof.
  induction fuel as [|fuel IH]; intros k n Hk Hn Hfuel; [lia|].
  simpl nondecreasingPartitionsStartingWith.
  destruct (Z.eqb_spec k n) as [->|Hkn].
  - exists [[n]]. split; [reflexivity|]. split.
    + repeat constructor. simpl. tauto.
    + intros p. simpl. split.
      * intros [<-|[]]. split; [eauto|].
        repeat split; repeat constructor; simpl; lia.
      * intros [(rest & ->) (_ & Hpos & Htot)]. left.
        apply Forall_cons_iff in Hpos; destruct Hpos as [_ Hrest].
        simpl in Htot. rewrite (total_zero rest); auto. lia.
  - destruct (Z.ltb_spec k n) as [Hlt|Hge].
    + assert (Hrec : forall i, k <= i ->
                exists ps, nondecreasingPartitionsStartingWith fuel i (n - k)
                           = Some ps /\ starting_with_spec i (n - k) ps).
      { intros i Hi. apply IH; lia. }
      set (res := fun i =>
             match nondecreasingPartitionsStartingWith fuel i (n - k) with
             | Some ps => ps
             | None => []
             end).
      assert (Hres : forall i, k <= i ->
                nondecreasingPartitionsStartingWith fuel i (n - k)
                = Some (res i) /\ starting_with_spec i (n - k) (res i)).
      { intros i Hi. destruct (Hrec i Hi) as (ps & E & Hspec).
        unfold res. rewrite E. auto. }
      rewrite (startingWith_loop_eq _ k res)
        by (intros i Hi; apply in_range in Hi; apply Hres; lia).
      simpl app. eexists. split; [reflexivity|]. split.
      * apply NoDup_flat_map.
        -- apply NoDup_range.
        -- intros i Hi. apply in_range in Hi. apply NoDup_map_cons.
           apply (Hres i); lia.
        -- intros i j x Hi Hj Hxi Hxj. apply in_range in Hi, Hj.
           apply in_map_iff in Hxi, Hxj.
           destruct Hxi as (q & <- & Hq), Hxj as (q' & E & Hq').
           injection E as ->.
           apply (proj2 (proj2 (Hres i ltac:(lia)))) in Hq.
           apply (proj2 (proj2 (Hres j ltac:(lia)))) in Hq'.
           destruct Hq as [(r & ->) _], Hq' as [(r' & E) _]. congruence.
      * intros p. rewrite in_flat_map. split.
        -- intros (i & Hi & Hp). apply in_range in Hi.
           apply in_map_iff in Hp. destruct Hp as (q & <- & Hq).
           apply (proj2 (proj2 (Hres i ltac:(lia)))) in Hq.
           destruct Hq as [(r & ->) (Hs & Hpos & Htot)].
           split; [simpl; eauto|]. split; [|split].
           ++ simpl. constructor; [exact Hs|]. constructor. lia.
           ++ simpl. constructor; [lia | exact Hpos].
           ++ simpl in *. lia.
        -- intros [(rest & ->) (Hs & Hpos & Htot)].
           apply Forall_cons_iff in Hpos; destruct Hpos as [_ Hrest].
           apply Sorted_inv in Hs. destruct Hs as [Hs Hhd].
           simpl in Htot.
           destruct rest as [|i rest'].
           { simpl in Htot. lia. }
           apply HdRel_inv in Hhd.
           apply Forall_cons_iff in Hrest; destruct Hrest as [Hi Hrest'].
           pose proof (total_nonneg _ Hrest') as Hnn. simpl in Htot.
           exists i. split; [apply in_range; lia|].
           apply in_map_iff. exists (i :: rest'). split; [reflexivity|].
           apply (proj2 (proj2 (Hres i ltac:(lia)))).
           split; [eauto|]. repeat split; auto. simpl. lia.
    + exists []. split; [reflexivity|]. split; [constructor|].
      intros p. simpl. split; [tauto|].
      intros [(rest & ->) (_ & Hpos & Htot)].
      apply Forall_cons_iff in Hpos; destruct Hpos as [_ Hrest].
      apply total_nonneg in Hrest. simpl in Htot. lia.
Qed.

(** More fuel does not change a result. *)
Lemma startingWith_loop_mono (rec1 rec2 : Z -> option (list (list Z))) k :
  (forall i ps, rec1 i = Some ps -> rec2 i = Some ps) ->
  forall idxs partitions r,
    startingWith_loop rec1 k idxs partitions = Some r ->
    startingWith_loop rec2 k idxs partitions = Some r.
Proof.
  intros Hrec. induction idxs as [|i idxs IH]; intros partitions r; simpl;
    [auto|].
  destruct (rec1 i) as [ps|] eqn:E; [|discriminate].
  rewrite (Hrec _ _ E). simpl. apply IH.
Qed.

Lemma startingWith_fuel_mono : forall fuel k n ps,
  nondecreasingPartitionsStartingWith fuel k n = Some ps ->
  nondecreasingPartitionsStartingWith (S fuel) k n = Some ps.
Proof.
  induction fuel as [|fuel IH]; intros k n ps; [discriminate|].
  intros H. simpl in H.
  change (nondecreasingPartitionsStartingWith (S (S fuel)) k n)
    with (if k =? n then Some [[n]]
          else if k <? n
          then startingWith_loop
                 (fun i => nondecreasingPartitionsStartingWith (S fuel) i (n - k))
                 k (range k (n - k + 1)) []
          else Some []).
  destruct (k =? n); [exact H|]. destruct (k <? n); [|exact H].
  eapply startingWith_loop_mono; [|exact H].
  intros i qs. apply IH.
Qed.

Lemma startingWith_fuel_le fuel fuel' k n ps :
  (fuel <= fuel')%nat ->
  nondecreasingPartitionsStartingWith fuel k n = Some ps ->
  nondecreasingPartitionsStartingWith fuel' k n = Some ps.
Proof.
  induction 1 as [|fuel' _ IH]; [auto|].
  intros H. apply startingWith_fuel_mono. auto.
Qed.

(** C4. For every positive integer [n], [nondecreasingPartitions(n)]
    returns a list that contains every non-decreasing sequence of positive
    integers with sum [n] exactly once, and nothing else: with fuel at least
    [n] the result is one list without repeated entries whose members are
    exactly those sequences.  And [nondecreasingPartitions(5)] is the list
    of the seven partitions of 5. *)
Theorem nondecreasingPartitions_correct :
  (forall n, 1 <= n ->
     exists ps,
       (forall fuel, (Z.to_nat n <= fuel)%nat ->
                     nondecreasingPartitions fuel n = Some ps) /\
       NoDup ps /\
       (forall p, In p ps <-> is_nondecreasing_partition n p)) /\
  nondecreasingPartitions 5 5
  = Some [[1; 1; 1; 1; 1]; [1; 1; 1; 2]; [1; 1; 3]; [1; 2; 2]; [1; 4];
          [2; 3]; [5]].
Proof.
  split; [|reflexivity].
  intros n Hn.
  set (res := fun i =>
         match nondecreasingPartitionsStartingWith (Z.to_nat n) i n with
         | Some ps => ps
         | None => []
         end).
  assert (Hres : forall i, 1 <= i ->
            nondecreasingPartitionsStartingWith (Z.to_nat n) i n
            = Some (res i) /\ starting_with_spec i n (res i)).
  { intros i Hi.
    destruct (startingWith_correct (Z.to_nat n) i n Hi Hn (le_n _))
      as (ps & E & Hspec).
    unfold res. rewrite E. auto. }
  exists (flat_map res (range 1 (n + 1))). split; [|split].
  - intros fuel Hfuel. unfold nondecreasingPartitions.
    rewrite (nondecreasingPartitions_loop_eq fuel n res); [reflexivity|].
    intros i Hi. apply in_range in Hi.
    eapply startingWith_fuel_le; [exact Hfuel|]. apply Hres. lia.
  - apply NoDup_flat_map.
    + apply NoDup_range.
    + intros i Hi. apply in_range in Hi. apply (Hres i). lia.
    + intros i j x Hi Hj Hxi Hxj. apply in_range in Hi, Hj.
      apply (proj2 (proj2 (Hres i ltac:(lia)))) in Hxi.
      apply (proj2 (proj2 (Hres j ltac:(lia)))) in Hxj.
      destruct Hxi as [(r & ->) _], Hxj as [(r' & E) _]. congruence.
  - intros p. rewrite in_flat_map. split.
    + intros (i & Hi & Hp). apply in_range in Hi.
      now apply (proj2 (proj2 (Hres i ltac:(lia)))) in Hp.
    + intros (Hs & Hpos & Htot).
      destruct p as [|i rest]; [simpl in Htot; lia|].
      pose proof Hpos as Hpos'.
      apply Forall_cons_iff in Hpos'; destruct Hpos' as [Hi Hrest].
      pose proof (total_nonneg _ Hrest) as Hnn.
      assert (Hsum : i + total rest = n) by exact Htot.
      exists i. split; [apply in_range; lia|].
      apply (proj2 (proj2 (Hres i ltac:(lia)))).
      split; [eauto|]. repeat split; auto.
Qed.

Lemma nondecreasingPartitions_correct_witness :
  exists ps,
    (forall fuel, (Z.to_nat 5 <= fuel)%nat ->
                  nondecreasingPartitions fuel 5 = Some ps) /\
    NoDup ps /\
    (forall p, In p ps <-> is_nondecreasing_partition 5 p).
Proof.
  destruct nondecreasingPartitions_correct as [H _]. apply H. lia.
Defined.

End Partitions.

(** ** [isCyclicInverselyMinimal] on the classes of short words *)

Module CanonicalForm.
Import Py PyFacts.

Lemma in_words_of_length alphabet : forall w,
  over alphabet w -> In w (words_of_length alphabet (length w)).
Proof.
  induction 1 as [|x w Hx Hw IH]; simpl; [now left|].
  apply in_flat_map. exists x. split; [exact Hx|]. now apply in_map.
Qed.

Lemma in_words_up_to alphabet w : forall L,
  over alphabet w -> (length w <= L)%nat -> In w (words_up_to alphabet L).
Proof.
  intros L Hw. induction L as [|L IH]; intros Hlen.
  - destruct w; [now left | simpl in Hlen; lia].
  - change (words_up_to alphabet (S L))
      with (words_up_to alphabet L ++ words_of_length alphabet (S L)).
    apply in_or_app.
    destruct (Nat.eq_dec (length w) (S L)) as [<-|Hne].
    + right. now apply in_words_of_length.
    + left. apply IH. lia.
Qed.

Lemma one_accepted_all_short_words :
  forallb (one_accepted (standardAlphabet 2))
          (words_up_to (standardAlphabet 2) 6) = true.
Proof. vm_compute. reflexivity. Qed.

Lemma accepted_iff alphabet x :
  accepted alphabet x = true <-> isCyclicInverselyMinimal x alphabet = Some true.
Proof.
  unfold accepted.
  destruct (isCyclicInverselyMinimal x alphabet) as [[|]|];
    split; congruence.
Qed.

(** C5. For every word [w] of length at most 6 over [standardAlphabet(2)],
    [inverseCyclicShifts(w)] returns a list of which exactly one member
    satisfies [isCyclicInverselyMinimal]: some word [x] of the list is
    accepted, and every accepted word of the list is [x].  (A word can stand
    at several positions of the list; it is counted as one member.) *)
Theorem unique_cyclic_inverse_minimal (w : list Z) :
  over (standardAlphabet 2) w -> (length w <= 6)%nat ->
  exists shifts, inverseCyclicShifts w = Some shifts /\
    exists x, In x shifts /\
      isCyclicInverselyMinimal x (standardAlphabet 2) = Some true /\
      forall y, In y shifts ->
        isCyclicInverselyMinimal y (standardAlphabet 2) = Some true -> y = x.
Proof.
  intros Hw Hlen.
  pose proof one_accepted_all_short_words as Hall.
  rewrite forallb_forall in Hall.
  specialize (Hall w (in_words_up_to _ w 6 Hw Hlen)).
  unfold one_accepted in Hall.
  destruct (inverseCyclicShifts w) as [shifts|]; [|discriminate].
  exists shifts. split; [reflexivity|].
  destruct (filter (accepted (standardAlphabet 2)) shifts) as [|x rest] eqn:E;
    [discriminate|].
  assert (Hx : In x (filter (accepted (standardAlphabet 2)) shifts))
    by (rewrite E; now left).
  apply filter_In in Hx. destruct Hx as [Hin Hacc].
  exists x. split; [exact Hin|]. split; [now apply accepted_iff|].
  intros y Hy Hyacc.
  assert (Hy' : In y (x :: rest)).
  { rewrite <- E. apply filter_In. split; [exact Hy|]. now apply accepted_iff. }
  destruct Hy' as [->|Hy']; [reflexivity|].
  rewrite forallb_forall in Hall. symmetry. apply list_eqb_eq. now apply Hall.
Qed.

Lemma unique_cyclic_inverse_minimal_witness :
  exists shifts, inverseCyclicShifts [2; -1; 2] = Some shifts /\
    exists x, In x shifts /\
      isCyclicInverselyMinimal x (standardAlphabet 2) = Some true /\
      forall y, In y shifts ->
        isCyclicInverselyMinimal y (standardAlphabet 2) = Some true -> y = x.
Proof.
  apply unique_cyclic_inverse_minimal.
  - unfold over; repeat constructor; simpl; tauto.
  - simpl; lia.
Defined.

(** The list can hold the accepted word more than once: the class of
    [[1, -1]] is listed as [[1, -1], [1, -1], [-1, 1], [-1, 1]], because
    [[1, -1]] is its own inverse. *)
Example inverseCyclicShifts_repeats :
  inverseCyclicShifts [1; -1] = Some [[1; -1]; [1; -1]; [-1; 1]; [-1; 1]] /\
  isCyclicInverselyMinimal [1; -1] (standardAlphabet 2) = Some true /\
  isCyclicInverselyMinimal [-1; 1] (standardAlphabet 2) = Some false.
Proof. repeat split. Qed.

End CanonicalForm.

(** * Further properties of the code *)

(** ** [standardAlphabet] *)

Module StandardAlphabet.
Import Py PyFacts.

Lemma index_app_l l r x i :
  index l x = Some i -> index (l ++ r) x = Some i.
Proof.
  revert i. induction l as [|a l IH]; simpl; intros i H; [discriminate|].
  destruct (a =? x); [exact H|].
  destruct (index l x) as [j|]; [|discriminate].
  now rewrite (IH j eq_refl).
Qed.

Lemma index_app_r l r x :
  ~ In x l -> index (l ++ r) x = option_map (fun i => len l + i) (index r x).
Proof.
  induction l as [|a l IH]; intros Hn.
  - cbn [app]. destruct (index r x); reflexivity.
  - cbn [app index].
    destruct (Z.eqb_spec a x) as [->|_]; [exfalso; apply Hn; now left|].
    rewrite IH by (intros H; apply Hn; now right). rewrite len_cons.
    destruct (index r x); cbn [option_map]; [f_equal; lia | reflexivity].
Qed.

Lemma standardAlphabet_nonpos n : n <= 0 -> standardAlphabet n = [].
Proof. intros H. unfold standardAlphabet. now rewrite range_nil by lia. Qed.

Lemma range_snoc a b : a <= b -> range a (b + 1) = range a b ++ [b].
Proof.
  intros H. unfold range.
  replace (Z.to_nat (b + 1 - a)) with (Z.to_nat (b - a) + 1)%nat by lia.
  rewrite seq_app, map_app. cbn [seq map]. do 2 f_equal. lia.
Qed.

Lemma standardAlphabet_succ n :
  0 <= n -> standardAlphabet (n + 1) = standardAlphabet n ++ [n + 1; - (n + 1)].
Proof.
  intros H. unfold standardAlphabet.
  rewrite (range_snoc 1 (n + 1)) by lia.
  now rewrite fold_left_app.
Qed.

Lemma standardAlphabet_facts n :
  0 <= n ->
  len (standardAlphabet n) = 2 * n /\
  NoDup (standardAlphabet n) /\
  (forall x, In x (standardAlphabet n) <-> x <> 0 /\ - n <= x <= n) /\
  (forall i, 1 <= i <= n ->
     index (standardAlphabet n) i = Some (2 * i - 2) /\
     index (standardAlphabet n) (- i) = Some (2 * i - 1)).
Proof.
  revert n. apply natlike_ind.
  - rewrite standardAlphabet_nonpos by lia.
    split; [reflexivity|]. split; [constructor|]. split.
    + intros x. simpl. lia.
    + intros i Hi. lia.
  - intros n Hn (Hlen & Hnd & Hin & Hidx).
    change (Z.succ n) with (n + 1). rewrite standardAlphabet_succ by lia.
    assert (Hnew : ~ In (n + 1) (standardAlphabet n)) by (rewrite Hin; lia).
    assert (Hnew' : ~ In (- (n + 1)) (standardAlphabet n))
      by (rewrite Hin; lia).
    split; [|split; [|split]].
    + rewrite len_app, Hlen. change (len [n + 1; - (n + 1)]) with 2. lia.
    + apply NoDup_app; [exact Hnd | |].
      * repeat constructor; simpl; intuition lia.
      * intros x Hx [<-|[<-|[]]]; contradiction.
    + intros x. rewrite in_app_iff, Hin. simpl. lia.
    + intros i Hi. destruct (Z.eq_dec i (n + 1)) as [->|Hne].
      * rewrite !index_app_r by assumption. cbn [index].
        rewrite !Z.eqb_refl. destruct (Z.eqb_spec (n + 1) (- (n + 1))); [lia|].
        cbn [option_map]. rewrite Hlen. split; f_equal; lia.
      * destruct (Hidx i ltac:(lia)) as [H1 H2].
        split; now apply index_app_l.
Qed.

(** X1. [standardAlphabet(n)] has [2 * max(n, 0)] letters, none repeated:
    the non-zero integers between [-n] and [n].  The generator [i] stands at
    index [2i - 2] and its inverse [-i] right after it, at index [2i - 1]. *)
Theorem standardAlphabet_spec (n : Z) :
  len (standardAlphabet n) = 2 * Z.max 0 n /\
  NoDup (standardAlphabet n) /\
  (forall x, In x (standardAlphabet n) <-> x <> 0 /\ - n <= x <= n) /\
  (forall i, 1 <= i <= n ->
     index (standardAlphabet n) i = Some (2 * i - 2) /\
     index (standardAlphabet n) (- i) = Some (2 * i - 1)).
Proof.
  destruct (Z.le_gt_cases 0 n) as [H|H].
  - rewrite Z.max_r by lia. now apply standardAlphabet_facts.
  - rewrite standardAlphabet_nonpos by lia.
    split; [change (len (@nil Z)) with 0; lia|].
    split; [constructor|]. split.
    + intros x. simpl. lia.
    + intros i Hi. lia.
Qed.

Lemma standardAlphabet_spec_witness :
  index (standardAlphabet 3) 2 = Some (2 * 2 - 2) /\
  index (standardAlphabet 3) (- 2) = Some (2 * 2 - 1).
Proof.
  destruct (standardAlphabet_spec 3) as (_ & _ & _ & H). apply H. lia.
Defined.

Lemma standardAlphabet_neg_closed n x :
  In x (standardAlphabet n) -> In (- x) (standardAlphabet n).
Proof.
  destruct (Z.le_gt_cases 0 n) as [Hn|Hn].
  - destruct (standardAlphabet_facts n Hn) as (_ & _ & H & _). rewrite !H. lia.
  - now rewrite standardAlphabet_nonpos by lia.
Qed.

End StandardAlphabet.

(** ** [cyclicShiftLeft] for every shift amount *)

Module Rotation.
Import Py PyFacts CyclicShifts.

Lemma shift_clamp w n :
  cyclicShiftLeft w n
  = skipn (clamp (len w) n) w ++ firstn (clamp (len w) n) w.
Proof. reflexivity. Qed.

Lemma shift_out_of_range w n :
  len w <= n \/ n <= - len w -> cyclicShiftLeft w n = w.
Proof.
  pose proof (len_nonneg w) as Hlen.
  intros [H|H]; rewrite shift_clamp; unfold clamp.
  - destruct (Z.ltb_spec n 0); [lia|].
    replace (Z.to_nat (Z.min n (len w))) with (length w)
      by (unfold len in *; lia).
    now rewrite skipn_all, firstn_all.
  - destruct (Z.ltb_spec n 0).
    + replace (Z.to_nat (Z.max (len w + n) 0)) with O by lia.
      simpl. apply app_nil_r.
    + replace (Z.to_nat (Z.min n (len w))) with O by lia.
      simpl. apply app_nil_r.
Qed.

Lemma shift_negative w n :
  - len w <= n < 0 -> cyclicShiftLeft w n = cyclicShiftLeft w (len w + n).
Proof.
  intros H. rewrite !shift_clamp. unfold clamp.
  destruct (Z.ltb_spec n 0); [|lia].
  destruct (Z.ltb_spec (len w + n) 0); [lia|].
  replace (Z.to_nat (Z.min (len w + n) (len w)))
    with (Z.to_nat (Z.max (len w + n) 0)) by lia.
  reflexivity.
Qed.

(** X2. For every integer [n], [cyclicShiftLeft(w, n)] is a rearrangement
    of [w] of the same length.  A shift by [len(w)] or more, or by
    [-len(w)] or less, returns [w] unchanged, and a shift by a negative [n]
    within the word is the shift by [len(w) + n]. *)
Theorem cyclicShiftLeft_any_amount (w : list Z) (n : Z) :
  Permutation w (cyclicShiftLeft w n) /\
  length (cyclicShiftLeft w n) = length w /\
  (len w <= n \/ n <= - len w -> cyclicShiftLeft w n = w) /\
  (- len w <= n < 0 -> cyclicShiftLeft w n = cyclicShiftLeft w (len w + n)).
Proof.
  assert (Hperm : Permutation w (cyclicShiftLeft w n)).
  { rewrite shift_clamp.
    rewrite <- (firstn_skipn (clamp (len w) n) w) at 1.
    apply Permutation_app_comm. }
  split; [exact Hperm|]. split; [symmetry; now apply Permutation_length|].
  split; [apply shift_out_of_range | apply shift_negative].
Qed.

Lemma cyclicShiftLeft_any_amount_witness :
  cyclicShiftLeft [1; 2; 3; 4] 5 = [1; 2; 3; 4] /\
  cyclicShiftLeft [1; 2; 3; 4] (-1) = cyclicShiftLeft [1; 2; 3; 4] (len [1; 2; 3; 4] + -1).
Proof.
  destruct (cyclicShiftLeft_any_amount [1; 2; 3; 4] 5) as (_ & _ & H5 & _).
  destruct (cyclicShiftLeft_any_amount [1; 2; 3; 4] (-1)) as (_ & _ & _ & H1).
  split; [apply H5; left; unfold len; simpl; lia | apply H1; unfold len; simpl; lia].
Defined.

(** Two shifts within the word make one shift, taken around the word. *)
Lemma shift_shift w i j :
  0 <= i <= len w -> 0 <= j <= len w ->
  exists k, 0 <= k <= len w /\
    (k = i + j \/ k = i + j - len w) /\
    cyclicShiftLeft (cyclicShiftLeft w i) j = cyclicShiftLeft w k.
Proof.
  intros Hi Hj.
  destruct (Z.le_gt_cases (i + j) (len w)) as [H|H].
  - exists (i + j). split; [lia|]. split; [now left|].
    apply shift_compose; lia.
  - exists (i + j - len w). split; [lia|]. split; [now right|].
    assert (Hl : len (cyclicShiftLeft w i) = len w)
      by (unfold len; now rewrite shift_length).
    replace j with ((len w - i) + (i + j - len w)) at 1 by lia.
    rewrite <- (shift_compose (cyclicShiftLeft w i)) by lia.
    rewrite (shift_compose w) by lia.
    replace (i + (len w - i)) with (len w) by lia.
    now rewrite shift_full.
Qed.

(** X3. Shifts compose: for shift amounts [i] and [j] between 0 and
    [len(w)], shifting by [i] and then by [j] is the shift by
    [(i + j) mod len(w)]; and shifting back by [-i] undoes the shift by
    [i]. *)
Theorem cyclicShiftLeft_compose (w : list Z) (i j : Z) :
  0 <= i <= len w -> 0 <= j <= len w ->
  cyclicShiftLeft (cyclicShiftLeft w i) j
  = cyclicShiftLeft w ((i + j) mod len w) /\
  cyclicShiftLeft (cyclicShiftLeft w i) (- i) = w.
Proof.
  intros Hi Hj. split.
  - destruct (Z.eq_dec (len w) 0) as [E|Hne].
    + assert (i = 0) by lia. assert (j = 0) by lia. subst i j.
      rewrite E. simpl. now rewrite !shift_zero.
    + destruct (shift_shift w i j Hi Hj) as (k & Hk & Hcase & ->).
      destruct (Z.eq_dec k (len w)) as [->|Hk'].
      * rewrite shift_full.
        replace ((i + j) mod len w) with 0; [now rewrite shift_zero|].
        symmetry. destruct Hcase as [E|E].
        -- rewrite <- E. apply Z.mod_same. lia.
        -- replace (i + j) with (2 * len w) by lia.
           apply Z.mod_mul. lia.
      * f_equal. destruct Hcase as [->| ->].
        -- symmetry. apply Z.mod_small. lia.
        -- apply Z.mod_unique with (q := 1); lia.
  - assert (Hl : len (cyclicShiftLeft w i) = len w)
      by (unfold len; now rewrite shift_length).
    destruct (Z.eq_dec i 0) as [->|Hne].
    + simpl. now rewrite !shift_zero.
    + rewrite shift_negative by lia. rewrite Hl.
      rewrite shift_compose by lia.
      replace (i + (len w + - i)) with (len w) by lia. apply shift_full.
Qed.

Lemma cyclicShiftLeft_compose_witness :
  cyclicShiftLeft (cyclicShiftLeft [1; 2; 3; 4] 3) 2
  = cyclicShiftLeft [1; 2; 3; 4] ((3 + 2) mod len [1; 2; 3; 4]) /\
  cyclicShiftLeft (cyclicShiftLeft [1; 2; 3; 4] 3) (- 3) = [1; 2; 3; 4].
Proof.
  apply cyclicShiftLeft_compose; unfold len; simpl; lia.
Defined.

End Rotation.

(** ** [inverse], concatenation and shifts *)

Module InverseFacts.
Import Py PyFacts CyclicShifts.

Lemma inverse_is_inverse_word w : inverse w = Some (inverse_word w).
Proof. apply Inverse.inverse_eq. Qed.

Lemma inverse_word_length w : length (inverse_word w) = length w.
Proof. unfold inverse_word. now rewrite length_map, length_rev. Qed.

Lemma inverse_word_len w : len (inverse_word w) = len w.
Proof. unfold len. now rewrite inverse_word_length. Qed.

Lemma inverse_word_app u v :
  inverse_word (u ++ v) = inverse_word v ++ inverse_word u.
Proof. unfold inverse_word. now rewrite rev_app_distr, map_app. Qed.

Lemma inverse_word_involutive w : inverse_word (inverse_word w) = w.
Proof.
  unfold inverse_word. rewrite <- map_rev, rev_involutive, map_map.
  rewrite <- (map_id w) at 2. apply map_ext. intros x. lia.
Qed.

Lemma in_inverse_word w x : In x (inverse_word w) <-> In (- x) w.
Proof.
  unfold inverse_word. rewrite in_map_iff. split.
  - intros (y & <- & Hy). apply in_rev in Hy.
    now rewrite Z.opp_involutive.
  - intros H. exists (- x). split; [lia|]. now apply in_rev in H.
Qed.

(** X4. [inverse] turns a concatenation around:
    [inverse(u + v) == inverse(v) + inverse(u)].  The inverse of a word has
    the length of the word, and its letters are the negatives of the
    letters of the word. *)
Theorem inverse_concatenation (u v : list Z) :
  exists iu iv,
    inverse u = Some iu /\ inverse v = Some iv /\
    inverse (u ++ v) = Some (iv ++ iu) /\
    length iu = length u /\
    (forall x, In x iu <-> In (- x) u).
Proof.
  exists (inverse_word u), (inverse_word v).
  rewrite !inverse_is_inverse_word, inverse_word_app.
  repeat split; try apply in_inverse_word.
  apply inverse_word_length.
Qed.

Lemma inverse_word_shift w i :
  0 <= i <= len w ->
  inverse_word (cyclicShiftLeft w i)
  = cyclicShiftLeft (inverse_word w) (len w - i).
Proof.
  intros Hi. unfold len in Hi.
  replace i with (Z.of_nat (Z.to_nat i)) by lia.
  replace (len w - Z.of_nat (Z.to_nat i))
    with (Z.of_nat (length w - Z.to_nat i)) by (unfold len; lia).
  assert (Hk : (Z.to_nat i <= length w)%nat) by lia.
  revert Hk. generalize (Z.to_nat i). clear. intros k Hk.
  rewrite shift_nat by lia.
  rewrite shift_nat by (rewrite inverse_word_length; lia).
  rewrite inverse_word_app. unfold inverse_word.
  rewrite skipn_map, firstn_map, skipn_rev, firstn_rev.
  replace (length w - (length w - k))%nat with k by lia.
  reflexivity.
Qed.

(** X5. Inverting a shifted word is shifting the inverted word the other
    way: for [0 <= i <= len(w)],
    [inverse(cyclicShiftLeft(w, i)) == cyclicShiftLeft(inverse(w), len(w) - i)]. *)
Theorem inverse_of_shift (w : list Z) (i : Z) :
  0 <= i <= len w ->
  exists iw, inverse w = Some iw /\
    inverse (cyclicShiftLeft w i) = Some (cyclicShiftLeft iw (len w - i)).
Proof.
  intros Hi. exists (inverse_word w).
  rewrite !inverse_is_inverse_word. split; [reflexivity|].
  f_equal. now apply inverse_word_shift.
Qed.

Lemma inverse_of_shift_witness :
  exists iw, inverse [1; 2; -3] = Some iw /\
    inverse (cyclicShiftLeft [1; 2; -3] 1)
    = Some (cyclicShiftLeft iw (len [1; 2; -3] - 1)).
Proof. apply inverse_of_shift. unfold len; simpl; lia. Defined.

End InverseFacts.

(** ** The class listed by [inverseCyclicShifts] *)

Module EquivalenceClass.
Import Py PyFacts CyclicShifts Rotation InverseFacts.

Lemma inverseCyclicShifts_loop_eq : forall shifts acc,
  inverseCyclicShifts_loop shifts acc
  = Some (acc ++ flat_map (fun s => [s; inverse_word s]) shifts).
Proof.
  induction shifts as [|s shifts IH]; intros acc; simpl.
  - now rewrite app_nil_r.
  - rewrite inverse_is_inverse_word. simpl bind. rewrite IH.
    now rewrite <- app_assoc.
Qed.

Lemma inverseCyclicShifts_eq w :
  inverseCyclicShifts w
  = Some (flat_map (fun s => [s; inverse_word s]) (cyclicShifts w)).
Proof. unfold inverseCyclicShifts. now rewrite inverseCyclicShifts_loop_eq. Qed.

(** Every rotation of [w] within the word is listed by [cyclicShifts]. *)
Lemma cyclicShifts_rotations w x :
  In x (cyclicShifts w) <-> exists i, 0 <= i <= len w /\ x = cyclicShiftLeft w i.
Proof.
  destruct w as [|a w'].
  - change (cyclicShifts []) with [@nil Z]. change (len (@nil Z)) with 0.
    split.
    + intros [<-|[]]. exists 0. split; [lia | reflexivity].
    + intros (i & Hi & ->). left. assert (i = 0) by lia. now subst.
  - remember (a :: w') as w eqn:Ew.
    assert (Hne : w <> []) by (subst; discriminate).
    destruct (cyclicShifts_period w Hne) as (p & Hp & Heq & Hmin & Hfix).
    rewrite Heq, in_map_iff. split.
    + intros (i & <- & Hi). apply in_range in Hi. exists i. split; [lia | reflexivity].
    + intros (i & Hi & ->).
      pose proof (Z.div_mod i p ltac:(lia)) as Hdm.
      pose proof (Z.mod_pos_bound i p ltac:(lia)) as Hr.
      assert (Hq : 0 <= i / p) by (apply Z.div_pos; lia).
      exists (i mod p). split; [|apply in_range; lia].
      set (q := i / p) in *. set (r := i mod p) in *.
      assert (Hqfix : cyclicShiftLeft w (q * p) = w).
      { replace q with (Z.of_nat (Z.to_nat q)) by lia.
        apply shift_multiple; [lia | exact Hfix | nia]. }
      rewrite <- Hqfix at 1. rewrite shift_compose by nia.
      f_equal. lia.
Qed.

Lemma in_inverseCyclicShifts w shifts x :
  inverseCyclicShifts w = Some shifts -> (In x shifts <-> in_class w x).
Proof.
  rewrite inverseCyclicShifts_eq. intros [= <-].
  rewrite in_flat_map. unfold in_class. split.
  - intros (s & Hs & Hx). apply cyclicShifts_rotations in Hs.
    destruct Hs as (i & Hi & ->). exists i. split; [exact Hi|].
    simpl in Hx. intuition.
  - intros (i & Hi & Hx). exists (cyclicShiftLeft w i). split.
    + apply cyclicShifts_rotations. eauto.
    + simpl. intuition.
Qed.

Lemma in_class_refl w : in_class w w.
Proof.
  exists 0. pose proof (len_nonneg w). split; [lia|]. left.
  now rewrite shift_zero.
Qed.

Lemma in_class_length w x : in_class w x -> length x = length w.
Proof.
  intros (i & Hi & [-> | ->]).
  - now apply shift_length.
  - rewrite inverse_word_length. now apply shift_length.
Qed.

Lemma in_class_len w x : in_class w x -> len x = len w.
Proof. intros H. unfold len. now rewrite (in_class_length w x H). Qed.

Lemma in_class_inverse w x : in_class w x -> in_class w (inverse_word x).
Proof.
  intros (i & Hi & [-> | ->]); exists i; split; auto.
  left. apply inverse_word_involutive.
Qed.

Lemma in_class_shift w x j :
  in_class w x -> 0 <= j <= len w -> in_class w (cyclicShiftLeft x j).
Proof.
  intros (i & Hi & [-> | ->]) Hj.
  - destruct (shift_shift w i j Hi Hj) as (k & Hk & _ & ->).
    exists k. auto.
  - assert (Hl : len (cyclicShiftLeft w i) = len w)
      by (unfold len; now rewrite shift_length).
    destruct (shift_shift w i (len w - j)) as (k & Hk & _ & E); [lia | lia |].
    exists k. split; [exact Hk|]. right.
    rewrite <- E.
    rewrite (inverse_word_shift (cyclicShiftLeft w i) (len w - j)) by lia.
    rewrite Hl. f_equal. lia.
Qed.

Lemma in_class_trans w x y : in_class w x -> in_class x y -> in_class w y.
Proof.
  intros Hx (j & Hj & Hy). rewrite (in_class_len w x Hx) in Hj.
  destruct Hy as [-> | ->].
  - now apply in_class_shift.
  - apply in_class_inverse. now apply in_class_shift.
Qed.

Lemma in_class_sym w x : in_class w x -> in_class x w.
Proof.
  intros Hx. pose proof (in_class_len w x Hx) as Hl.
  destruct Hx as (i & Hi & [-> | ->]).
  - exists (len w - i). rewrite Hl. split; [lia|]. left.
    rewrite shift_compose by lia.
    replace (i + (len w - i)) with (len w) by lia. now rewrite shift_full.
  - exists i. rewrite Hl. split; [lia|]. right.
    assert (Hl' : len (cyclicShiftLeft w i) = len w)
      by (unfold len; now rewrite shift_length).
    rewrite (inverse_word_shift (inverse_word (cyclicShiftLeft w i)) i)
      by (rewrite inverse_word_len; lia).
    rewrite inverse_word_involutive, inverse_word_len, Hl'.
    rewrite shift_compose by lia.
    replace (i + (len w - i)) with (len w) by lia. now rewrite shift_full.
Qed.

Lemma cyclicShifts_head w : exists rest, cyclicShifts w = w :: rest.
Proof.
  unfold cyclicShifts. generalize (range 1 (len w)). intros idxs.
  assert (G : forall acc, exists rest,
            cyclicShifts_loop w idxs (w :: acc) = w :: rest).
  { induction idxs as [|i idxs IH]; intros acc; simpl; [eauto|].
    destruct (list_eqb (cyclicShiftLeft w i) w); [eauto|].
    apply (IH (acc ++ [cyclicShiftLeft w i])). }
  apply (G []).
Qed.

(** X6. [inverseCyclicShifts(w)] never raises.  Its list is twice as long
    as [cyclicShifts(w)] and starts with [w] and [inverse(w)]; its members
    are the rotations of [w] and the inverses of these rotations, all of
    the length of [w]; and with a word it holds the inverse of the word. *)
Theorem inverseCyclicShifts_members (w : list Z) :
  exists shifts,
    inverseCyclicShifts w = Some shifts /\
    len shifts = 2 * len (cyclicShifts w) /\
    (exists rest, shifts = w :: inverse_word w :: rest) /\
    (forall x, In x shifts <-> in_class w x) /\
    (forall x, In x shifts -> length x = length w) /\
    (forall x, In x shifts -> In (inverse_word x) shifts).
Proof.
  pose proof (inverseCyclicShifts_eq w) as E.
  eexists. split; [exact E|].
  assert (Hin : forall x,
            In x (flat_map (fun s => [s; inverse_word s]) (cyclicShifts w))
            <-> in_class w x)
    by (intros x; now apply in_inverseCyclicShifts).
  split; [|split; [|split; [exact Hin|split]]].
  - unfold len. generalize (cyclicShifts w).
    induction l as [|s l IH]; simpl; [reflexivity | lia].
  - destruct (cyclicShifts_head w) as (rest & ->). simpl. eauto.
  - intros x Hx. apply Hin in Hx. now apply in_class_length.
  - intros x Hx. apply Hin. apply Hin in Hx. now apply in_class_inverse.
Qed.

(** X7. The list of a member lists the same words: if [x] is listed by
    [inverseCyclicShifts(w)], then [inverseCyclicShifts(x)] and
    [inverseCyclicShifts(w)] have the same members. *)
Theorem inverseCyclicShifts_same_class (w x : list Z) (sw sx : list (list Z)) :
  inverseCyclicShifts w = Some sw -> inverseCyclicShifts x = Some sx ->
  In x sw -> forall y, In y sx <-> In y sw.
Proof.
  intros Hw Hx Hin y.
  rewrite (in_inverseCyclicShifts _ _ _ Hw) in Hin.
  rewrite (in_inverseCyclicShifts _ _ y Hw), (in_inverseCyclicShifts _ _ y Hx).
  split; intros H.
  - now apply in_class_trans with x.
  - apply in_class_trans with w; [now apply in_class_sym | exact H].
Qed.

Lemma inverseCyclicShifts_same_class_witness :
  In [-1; -2] [[2; 1]; [-1; -2]; [1; 2]; [-2; -1]]
  <-> In [-1; -2] [[1; 2]; [-2; -1]; [2; 1]; [-1; -2]].
Proof.
  apply (inverseCyclicShifts_same_class [1; 2] [2; 1]);
    [reflexivity | reflexivity | simpl; tauto].
Defined.

Lemma in_class_over alphabet w x :
  closed_under_negation alphabet -> over alphabet w -> in_class w x ->
  over alphabet x.
Proof.
  intros Hc Hw (i & Hi & Hx).
  assert (Hs : over alphabet (cyclicShiftLeft w i)).
  { unfold over. eapply Permutation_Forall; [|exact Hw].
    rewrite shift_clamp.
    rewrite <- (firstn_skipn (clamp (len w) i) w) at 1.
    apply Permutation_app_comm. }
  destruct Hx as [-> | ->]; [exact Hs|].
  unfold over in *. rewrite Forall_forall in *.
  intros a Ha. apply in_inverse_word in Ha.
  apply Hs, Hc in Ha. now rewrite Z.opp_involutive in Ha.
Qed.

Lemma isCyclicInverselyMinimal_loop_spec w alphabet : forall shifts,
  (forall s, In s shifts -> exists r, shortLexPrecedes s w alphabet = Some r) ->
  exists b, isCyclicInverselyMinimal_loop shifts w alphabet = Some b /\
    (b = true <->
     forall s, In s shifts -> shortLexPrecedes s w alphabet = Some false).
Proof.
  induction shifts as [|s shifts IH]; intros Hdef.
  - exists true. split; [reflexivity|]. split; [intros _ s [] | reflexivity].
  - simpl. destruct (Hdef s (or_introl eq_refl)) as [r Hr]. rewrite Hr.
    simpl bind. destruct r.
    + exists false. split; [reflexivity|]. split; [discriminate|].
      intros H. specialize (H s (or_introl eq_refl)). congruence.
    + destruct IH as (b & Hb & Hiff).
      { intros s' Hs'. apply Hdef. now right. }
      exists b. split; [exact Hb|]. rewrite Hiff. split.
      * intros H s' [<-|Hs']; auto.
      * intros H s' Hs'. apply H. now right.
Qed.

Lemma isCyclicInverselyMinimal_spec alphabet w :
  closed_under_negation alphabet -> over alphabet w ->
  exists b, isCyclicInverselyMinimal w alphabet = Some b /\
    (b = true <->
     forall s, in_class w s -> shortLexPrecedes s w alphabet = Some false).
Proof.
  intros Hc Hw. unfold isCyclicInverselyMinimal.
  pose proof (inverseCyclicShifts_eq w) as E. rewrite E. simpl bind.
  destruct (isCyclicInverselyMinimal_loop_spec w alphabet
              (flat_map (fun s => [s; inverse_word s]) (cyclicShifts w)))
    as (b & Hb & Hiff).
  { intros s Hs. apply (in_inverseCyclicShifts _ _ _ E) in Hs.
    apply ShortLex.precedes_defined; [|exact Hw].
    now apply in_class_over with w. }
  exists b. split; [exact Hb|]. rewrite Hiff.
  split; intros H s Hs; apply H; now apply (in_inverseCyclicShifts _ _ _ E).
Qed.

(** X8. Over an alphabet that holds the negative of each of its letters,
    [isCyclicInverselyMinimal(w, alphabet)] never raises for a word [w]
    over the alphabet, and returns [True] exactly when no word listed by
    [inverseCyclicShifts(w)] precedes [w]. *)
Theorem isCyclicInverselyMinimal_correct (alphabet w : list Z) :
  closed_under_negation alphabet -> over alphabet w ->
  exists shifts b,
    inverseCyclicShifts w = Some shifts /\
    isCyclicInverselyMinimal w alphabet = Some b /\
    (b = true <->
     forall s, In s shifts -> shortLexPrecedes s w alphabet = Some false).
Proof.
  intros Hc Hw.
  destruct (isCyclicInverselyMinimal_spec alphabet w Hc Hw) as (b & Hb & Hiff).
  pose proof (inverseCyclicShifts_eq w) as E.
  eexists. exists b. split; [exact E|]. split; [exact Hb|].
  rewrite Hiff.
  split; intros H s Hs; apply H; now apply (in_inverseCyclicShifts _ _ _ E).
Qed.

Lemma isCyclicInverselyMinimal_correct_witness :
  exists shifts b,
    inverseCyclicShifts [2; -1; 2] = Some shifts /\
    isCyclicInverselyMinimal [2; -1; 2] [1; -1; 2; -2] = Some b /\
    (b = true <->
     forall s, In s shifts ->
               shortLexPrecedes s [2; -1; 2] [1; -1; 2; -2] = Some false).
Proof.
  apply isCyclicInverselyMinimal_correct.
  - intros a Ha. simpl in *.
    repeat (destruct Ha as [<-|Ha]; [simpl; tauto|]). contradiction.
  - unfold over; repeat constructor; simpl; tauto.
Defined.

(** A non-empty list of words over the alphabet has a least word. *)
Lemma least_word alphabet : forall l : list (list Z),
  l <> [] -> (forall x, In x l -> over alphabet x) ->
  exists x, In x l /\
    forall y, In y l -> shortLexPrecedes y x alphabet = Some false.
Proof.
  induction l as [|a l IH]; intros Hne Hover; [contradiction|].
  destruct l as [|a' l'].
  - exists a. split; [now left|]. intros y [<-|[]].
    apply ShortLex.precedes_irrefl.
  - destruct IH as (m & Hm & Hmin); [discriminate | |].
    { intros x Hx. apply Hover. now right. }
    assert (Ha : over alphabet a) by (apply Hover; now left).
    assert (Hom : over alphabet m) by (apply Hover; now right).
    destruct (list_eq_dec Z.eq_dec a m) as [->|Hneq].
    + exists m. split; [now left|]. intros y [<-|Hy]; auto.
    + destruct (ShortLex.precedes_total alphabet a m Ha Hom Hneq)
        as [[Ham Hma]|[Ham Hma]].
      * exists a. split; [now left|]. intros y [<-|Hy].
        -- apply ShortLex.precedes_irrefl.
        -- destruct (ShortLex.precedes_defined alphabet y a) as [r Hr];
             [apply Hover; now right | exact Ha |].
           destruct r; [|exact Hr]. exfalso.
           pose proof (ShortLex.precedes_trans alphabet y a m Hr Ham) as Hym.
           rewrite (Hmin y Hy) in Hym. discriminate.
      * exists m. split; [now right|]. intros y [<-|Hy]; auto.
Qed.

(** X9. Every class has exactly one canonical word.  Over an alphabet that
    holds the negative of each of its letters, and for every word [w] over
    it, of any length, exactly one word listed by [inverseCyclicShifts(w)]
    satisfies [isCyclicInverselyMinimal]. *)
Theorem unique_canonical_word (alphabet w : list Z) :
  closed_under_negation alphabet -> over alphabet w ->
  exists shifts, inverseCyclicShifts w = Some shifts /\
    exists x, In x shifts /\
      isCyclicInverselyMinimal x alphabet = Some true /\
      forall y, In y shifts ->
        isCyclicInverselyMinimal y alphabet = Some true -> y = x.
Proof.
  intros Hc Hw. pose proof (inverseCyclicShifts_eq w) as E.
  eexists. split; [exact E|].
  set (shifts := flat_map (fun s => [s; inverse_word s]) (cyclicShifts w)) in *.
  assert (Hin : forall x, In x shifts <-> in_class w x)
    by (intros x; now apply in_inverseCyclicShifts).
  assert (Hover : forall x, In x shifts -> over alphabet x).
  { intros x Hx. apply in_class_over with w; auto. now apply Hin. }
  destruct (least_word alphabet shifts) as (x & Hx & Hmin).
  { intros E0. pose proof (in_class_refl w) as H. apply Hin in H.
    rewrite E0 in H. contradiction. }
  { exact Hover. }
  exists x. split; [exact Hx|].
  assert (Hxw : in_class w x) by now apply Hin.
  split.
  - destruct (isCyclicInverselyMinimal_spec alphabet x Hc (Hover x Hx))
      as (b & -> & Hiff).
    f_equal. apply Hiff. intros s Hs. apply Hmin, Hin.
    now apply in_class_trans with x.
  - intros y Hy Hacc.
    assert (Hyw : in_class w y) by now apply Hin.
    destruct (isCyclicInverselyMinimal_spec alphabet y Hc (Hover y Hy))
      as (b & Hb & Hiff).
    rewrite Hb in Hacc. injection Hacc as ->.
    assert (Hxy : shortLexPrecedes x y alphabet = Some false).
    { apply Hiff; [reflexivity|].
      apply in_class_trans with w; [now apply in_class_sym | exact Hxw]. }
    pose proof (Hmin y Hy) as Hyx.
    destruct (list_eq_dec Z.eq_dec y x) as [|Hneq]; [assumption|].
    exfalso.
    destruct (ShortLex.precedes_total alphabet y x (Hover y Hy) (Hover x Hx) Hneq)
      as [[H1 H2]|[H1 H2]]; congruence.
Qed.

Lemma unique_canonical_word_witness :
  exists shifts, inverseCyclicShifts [3; -1; 2; 2; -3; 1; 1] = Some shifts /\
    exists x, In x shifts /\
      isCyclicInverselyMinimal x (standardAlphabet 3) = Some true /\
      forall y, In y shifts ->
        isCyclicInverselyMinimal y (standardAlphabet 3) = Some true -> y = x.
Proof.
  apply unique_canonical_word.
  - intros a. apply StandardAlphabet.standardAlphabet_neg_closed.
  - unfold over. change (standardAlphabet 3) with [1; -1; 2; -2; 3; -3].
    repeat (apply Forall_cons; [simpl; tauto|]). apply Forall_nil.
Defined.

End EquivalenceClass.

(** ** [isCyclicallyReduced] on shifts and inverses *)

Module ReducedInvariance.
Import Py PyFacts CyclicShifts Rotation InverseFacts CyclicallyReduced.

(** The cyclic condition, stated at every integer position. *)
Lemma no_cancellation_everywhere w :
  0 < len w ->
  (no_cyclic_cancellation w <->
   forall i, cyclic_nth w (i - 1) <> - cyclic_nth w i).
Proof.
  intros Hn. split.
  - intros H i.
    assert (E1 : cyclic_nth w (i - 1) = cyclic_nth w (i mod len w - 1)).
    { unfold cyclic_nth. now rewrite Zminus_mod_idemp_l. }
    assert (E2 : cyclic_nth w i = cyclic_nth w (i mod len w)).
    { unfold cyclic_nth. now rewrite Z.mod_mod by lia. }
    rewrite E1, E2. apply H. apply Z.mod_pos_bound. lia.
  - intros H i _. apply H.
Qed.

Lemma cyclic_nth_shift w k j :
  0 < len w -> 0 <= k <= len w ->
  cyclic_nth (cyclicShiftLeft w k) j = cyclic_nth w (j + k).
Proof.
  intros Hn Hk. unfold cyclic_nth.
  assert (Hl : len (cyclicShiftLeft w k) = len w)
    by (unfold len; now rewrite shift_length).
  rewrite Hl.
  pose proof (Z.mod_pos_bound j (len w) Hn) as Hr.
  rewrite <- (Zplus_mod_idemp_l j k).
  set (r := j mod len w) in *.
  replace k with (Z.of_nat (Z.to_nat k)) at 1 by lia.
  rewrite shift_nat by (unfold len in *; lia).
  unfold len in *.
  destruct (Z.lt_ge_cases (r + k) (Z.of_nat (length w))) as [H|H].
  - rewrite Z.mod_small by lia.
    rewrite app_nth1 by (rewrite length_skipn; lia).
    rewrite nth_skipn. f_equal. lia.
  - replace ((r + k) mod Z.of_nat (length w)) with (r + k - Z.of_nat (length w))
      by (apply Z.mod_unique with (q := 1); lia).
    rewrite app_nth2 by (rewrite length_skipn; lia).
    rewrite length_skipn, nth_firstn.
    destruct (Nat.ltb_spec (Z.to_nat r - (length w - Z.to_nat k))
                (Z.to_nat k)); [|lia].
    f_equal. lia.
Qed.

Lemma cyclic_nth_inverse w j :
  0 < len w ->
  cyclic_nth (inverse_word w) j = - cyclic_nth w (len w - 1 - j).
Proof.
  intros Hn. unfold cyclic_nth. rewrite inverse_word_len.
  pose proof (Z.mod_pos_bound j (len w) Hn) as Hr.
  pose proof (Z.div_mod j (len w) ltac:(lia)) as Hdm.
  replace ((len w - 1 - j) mod len w) with (len w - 1 - j mod len w)
    by (apply Z.mod_unique with (q := - (j / len w)); lia).
  set (r := j mod len w) in *. unfold inverse_word, len in *.
  change 0 with (- 0) at 1. rewrite map_nth.
  rewrite rev_nth by lia. do 2 f_equal. lia.
Qed.

Lemma no_cancellation_shift w k :
  0 <= k <= len w ->
  (no_cyclic_cancellation (cyclicShiftLeft w k) <-> no_cyclic_cancellation w).
Proof.
  intros Hk. destruct (Z.eq_dec (len w) 0) as [E|Hne].
  - assert (k = 0) by lia. subst. now rewrite shift_zero.
  - pose proof (len_nonneg w) as Hlen.
    assert (Hl : len (cyclicShiftLeft w k) = len w)
      by (unfold len; now rewrite shift_length).
    rewrite !no_cancellation_everywhere by lia. split; intros H i.
    + specialize (H (i - k)). rewrite !cyclic_nth_shift in H by lia.
      replace (i - k - 1 + k) with (i - 1) in H by lia.
      replace (i - k + k) with i in H by lia. exact H.
    + rewrite !cyclic_nth_shift by lia.
      replace (i - 1 + k) with (i + k - 1) by lia. apply H.
Qed.

Lemma no_cancellation_inverse w :
  no_cyclic_cancellation (inverse_word w) <-> no_cyclic_cancellation w.
Proof.
  destruct (Z.eq_dec (len w) 0) as [E|Hne].
  - unfold len in E. assert (w = []) by (destruct w; [reflexivity | simpl in E; lia]).
    subst. reflexivity.
  - pose proof (len_nonneg w) as Hlen.
    rewrite !no_cancellation_everywhere by (rewrite ?inverse_word_len; lia).
    split; intros H i.
    + specialize (H (len w - i)). rewrite !cyclic_nth_inverse in H by lia.
      replace (len w - 1 - (len w - i - 1)) with i in H by lia.
      replace (len w - 1 - (len w - i)) with (i - 1) in H by lia. lia.
    + rewrite !cyclic_nth_inverse by lia.
      specialize (H (len w - i)).
      replace (len w - 1 - (i - 1)) with (len w - i) by lia.
      replace (len w - 1 - i) with (len w - i - 1) by lia. lia.
Qed.

Lemma isCyclicallyReduced_iff w1 w2 :
  (no_cyclic_cancellation w1 <-> no_cyclic_cancellation w2) ->
  isCyclicallyReduced w1 = isCyclicallyReduced w2.
Proof.
  intros H.
  destruct (isCyclicallyReduced_spec w1) as (b1 & -> & H1).
  destruct (isCyclicallyReduced_spec w2) as (b2 & -> & H2).
  f_equal. destruct b1, b2; try reflexivity; intuition congruence.
Qed.

(** X10. Being cyclically reduced is a property of the class: for
    [0 <= i <= len(w)], [isCyclicallyReduced] returns the same for
    [cyclicShiftLeft(w, i)] as for [w], and the same for [inverse(w)] as
    for [w]. *)
Theorem isCyclicallyReduced_invariant (w : list Z) (i : Z) :
  0 <= i <= len w ->
  isCyclicallyReduced (cyclicShiftLeft w i) = isCyclicallyReduced w /\
  exists iw, inverse w = Some iw /\
             isCyclicallyReduced iw = isCyclicallyReduced w.
Proof.
  intros Hi. split.
  - apply isCyclicallyReduced_iff. now apply no_cancellation_shift.
  - exists (inverse_word w). split; [apply inverse_is_inverse_word|].
    apply isCyclicallyReduced_iff. apply no_cancellation_inverse.
Qed.

Lemma isCyclicallyReduced_invariant_witness :
  isCyclicallyReduced (cyclicShiftLeft [1; 2; -1] 2)
  = isCyclicallyReduced [1; 2; -1] /\
  exists iw, inverse [1; 2; -1] = Some iw /\
             isCyclicallyReduced iw = isCyclicallyReduced [1; 2; -1].
Proof. apply isCyclicallyReduced_invariant. unfold len; simpl; lia. Defined.

End ReducedInvariance.

(** ** The successor functions and the order *)

Module SuccessorOrder.
Import Py PyFacts Odometer Enumeration.

Section Alphabet.

Variable alphabet : list Z.
Hypothesis alphabet_nodup : NoDup alphabet.
Hypothesis alphabet_nonempty : alphabet <> [].

(** On words of one length the comparison at the first difference is the
    comparison of the values. *)
Lemma first_difference_value : forall u v,
  over alphabet u -> over alphabet v -> length u = length v ->
  first_difference_smaller alphabet u v = (value alphabet u <? value alphabet v).
Proof.
  pose proof (m_pos alphabet alphabet_nonempty) as Hm.
  intros u v Hu. revert v. induction Hu as [|x u Hx Hu IH]; intros v Hv Hlen.
  - destruct v; [reflexivity | discriminate].
  - destruct Hv as [|y v Hy Hv]; [discriminate|].
    injection Hlen as Hlen.
    rewrite !value_cons. cbn [first_difference_smaller].
    pose proof (value_bound alphabet alphabet_nonempty u Hu) as Bu.
    pose proof (value_bound alphabet alphabet_nonempty v Hv) as Bv.
    assert (El : len u = len v) by (unfold len; lia).
    rewrite <- El in *.
    destruct (Z.eqb_spec x y) as [->|Hxy].
    + rewrite (IH v Hv Hlen).
      destruct (Z.ltb_spec (value alphabet u) (value alphabet v));
        symmetry; [apply Z.ltb_lt | apply Z.ltb_ge]; lia.
    + destruct (index_in _ _ Hx) as [i Hi], (index_in _ _ Hy) as [j Hj].
      rewrite Hi, Hj, (digit_index _ _ _ Hi), (digit_index _ _ _ Hj).
      assert (i <> j) by (intros ->; apply Hxy; eapply index_inj; eauto).
      destruct (Z.ltb_spec i j); symmetry;
        [apply Z.ltb_lt | apply Z.ltb_ge]; nia.
Qed.

(** The shortlex order of two words is the order of their ranks. *)
Lemma shortlex_lt_rank u v :
  over alphabet u -> over alphabet v ->
  shortlex_lt alphabet u v = (rank alphabet u <? rank alphabet v).
Proof.
  intros Hu Hv.
  destruct (letter_at alphabet alphabet_nodup 0) as (a0 & Ha0 & _).
  { pose proof (m_pos alphabet alphabet_nonempty). lia. }
  pose proof (rank_bound alphabet a0 Ha0 u Hu) as Bu.
  pose proof (rank_bound alphabet a0 Ha0 v Hv) as Bv.
  unfold len in Bu, Bv. fold (len alphabet) in Bu, Bv.
  destruct (Nat.lt_trichotomy (length u) (length v)) as [Hlt|[Heq|Hgt]].
  - pose proof (words_shorter_mono alphabet a0 Ha0 _ _ Hlt).
    unfold shortlex_lt.
    destruct (Nat.ltb_spec (length u) (length v)); [|lia]. simpl.
    symmetry. apply Z.ltb_lt. lia.
  - rewrite ShortLex.shortlex_lt_same_length by exact Heq.
    rewrite first_difference_value by assumption.
    unfold rank. rewrite Heq.
    destruct (Z.ltb_spec (value alphabet u) (value alphabet v));
      symmetry; [apply Z.ltb_lt | apply Z.ltb_ge]; lia.
  - pose proof (words_shorter_mono alphabet a0 Ha0 _ _ Hgt).
    unfold shortlex_lt.
    destruct (Nat.ltb_spec (length u) (length v)); [lia|].
    destruct (Nat.eqb_spec (length u) (length v)); [lia|]. simpl.
    symmetry. apply Z.ltb_ge. lia.
Qed.

Lemma precedes_value u v :
  over alphabet u -> over alphabet v -> length u = length v ->
  shortLexPrecedes u v alphabet
  = Some (value alphabet u <? value alphabet v).
Proof.
  intros Hu Hv Hlen.
  rewrite ShortLex.precedes_same_length by assumption.
  rewrite ShortLex.shortlex_lt_same_length by assumption.
  now rewrite first_difference_value.
Qed.

Lemma odometer_step_here w :
  over alphabet w ->
  exists w' z a0,
    odometerSuccessor w alphabet = Some w' /\
    get alphabet (-1) = Some z /\ get alphabet 0 = Some a0 /\
    (forallb (fun x => x =? z) w = true -> w' = repeat a0 (length w)) /\
    (forallb (fun x => x =? z) w = false ->
       shortLexPrecedes w w' alphabet = Some true /\
       forall v, over alphabet v -> length v = length w ->
         shortLexPrecedes w v alphabet = Some true ->
         v = w' \/ shortLexPrecedes w' v alphabet = Some true).
Proof.
  intros Hw.
  pose proof (m_pos alphabet alphabet_nonempty) as Hm.
  destruct (letter_at alphabet alphabet_nodup 0) as (a0 & Ha0 & _); [lia|].
  destruct (last_letter alphabet alphabet_nodup alphabet_nonempty)
    as (z & Hz & HIz & _).
  destruct (odometerSuccessor_spec alphabet alphabet_nodup alphabet_nonempty
              w Hw) as (w' & Hw' & Hover & Hlen & Hval).
  pose proof (value_bound alphabet alphabet_nonempty w Hw) as Hb.
  pose proof (value_max alphabet a0 Ha0 z w HIz Hw) as Hmax.
  exists w', z, a0. repeat (split; [assumption|]). split.
  - intros Hall. apply Hmax in Hall.
    apply (value_inj alphabet alphabet_nonempty); auto.
    + now apply over_repeat.
    + now rewrite repeat_length.
    + rewrite Hval, Hall, value_repeat by assumption.
      replace (len alphabet ^ len w - 1 + 1) with (len alphabet ^ len w)
        by lia.
      apply Z.mod_same. lia.
  - intros Hnot.
    assert (Hlt : value alphabet w <> len alphabet ^ len w - 1)
      by (intros E; apply Hmax in E; congruence).
    rewrite Z.mod_small in Hval by lia.
    split.
    + rewrite precedes_value by (auto; lia). f_equal. apply Z.ltb_lt. lia.
    + intros v Hv Hlv. rewrite precedes_value by (auto; lia).
      intros [= Hwv]. apply Z.ltb_lt in Hwv.
      destruct (Z.eq_dec (value alphabet v) (value alphabet w')) as [E|Hne].
      * left. apply (value_inj alphabet alphabet_nonempty); auto. lia.
      * right. rewrite precedes_value by (auto; lia). f_equal.
        apply Z.ltb_lt. lia.
Qed.

Lemma shortLexSuccessor_next_here w :
  over alphabet w ->
  exists w', shortLexSuccessor w alphabet = Some w' /\ over alphabet w' /\
    shortlex_lt alphabet w w' = true /\
    forall v, over alphabet v -> shortlex_lt alphabet w v = true ->
      v = w' \/ shortlex_lt alphabet w' v = true.
Proof.
  intros Hw.
  pose proof (m_pos alphabet alphabet_nonempty) as Hm.
  destruct (letter_at alphabet alphabet_nodup 0) as (a0 & Ha0 & _); [lia|].
  destruct (shortLexSuccessor_spec alphabet a0 alphabet_nodup Ha0 w Hw)
    as (w' & Hs & Hw' & Hrank).
  exists w'. split; [exact Hs|]. split; [exact Hw'|]. split.
  - rewrite shortlex_lt_rank by assumption. apply Z.ltb_lt. lia.
  - intros v Hv. rewrite !shortlex_lt_rank by assumption.
    intros Hlt. apply Z.ltb_lt in Hlt.
    destruct (Z.eq_dec (rank alphabet v) (rank alphabet w')) as [E|Hne].
    + left. now apply (rank_inj alphabet a0 Ha0).
    + right. apply Z.ltb_lt. lia.
Qed.

Lemma shortLexSuccessor_shape_here w :
  over alphabet w ->
  exists w' z,
    shortLexSuccessor w alphabet = Some w' /\ get alphabet (-1) = Some z /\
    w' <> [] /\
    (forallb (fun x => x =? z) w = true -> length w' = S (length w)) /\
    (forallb (fun x => x =? z) w = false -> length w' = length w).
Proof.
  intros Hw.
  pose proof (m_pos alphabet alphabet_nonempty) as Hm.
  destruct (letter_at alphabet alphabet_nodup 0) as (a0 & Ha0 & _); [lia|].
  destruct (last_letter alphabet alphabet_nodup alphabet_nonempty)
    as (z & Hz & HIz & _).
  destruct (shortLexSuccessor_spec alphabet a0 alphabet_nodup Ha0 w Hw)
    as (w' & Hs & Hw' & Hrank).
  pose proof (rank_bound alphabet a0 Ha0 w Hw) as Bw.
  pose proof (rank_bound alphabet a0 Ha0 w' Hw') as Bw'.
  pose proof (value_max alphabet a0 Ha0 z w HIz Hw) as Hmax.
  unfold len in Bw, Bw'. fold (len alphabet) in Bw, Bw'.
  assert (Hge : (length w <= length w')%nat).
  { destruct (Nat.le_gt_cases (length w) (length w')) as [|Hlt]; [assumption|].
    pose proof (words_shorter_mono alphabet a0 Ha0 _ _ Hlt). lia. }
  assert (Hle : (length w' <= S (length w))%nat).
  { destruct (Nat.le_gt_cases (length w') (S (length w))) as [|Hlt];
      [assumption|].
    pose proof (words_shorter_mono alphabet a0 Ha0 _ _ Hlt) as Hmono.
    simpl words_shorter in Hmono.
    assert (0 < len alphabet ^ Z.of_nat (S (length w)))
      by (apply Z.pow_pos_nonneg; lia).
    lia. }
  exists w', z. split; [exact Hs|]. split; [exact Hz|]. split; [|split].
  - intros ->. unfold rank in Hrank, Bw. simpl in Hrank.
    change (value alphabet []) with 0 in Hrank.
    pose proof (Enumeration.words_shorter_nonneg alphabet a0 Ha0 (length w)).
    lia.
  - intros Hall. apply Hmax in Hall.
    destruct (Nat.eq_dec (length w') (length w)) as [E|]; [|lia].
    exfalso. rewrite E in Bw'. unfold rank in Hrank at 2.
    unfold len in Hall. fold (len alphabet) in Hall. lia.
  - intros Hnot.
    destruct (Nat.eq_dec (length w') (S (length w))) as [E|]; [|lia].
    exfalso. rewrite E in Bw'. simpl words_shorter in Bw'.
    assert (value alphabet w = len alphabet ^ len w - 1).
    { pose proof (value_bound alphabet alphabet_nonempty w Hw) as Hb.
      unfold rank in Hrank at 2. unfold len in *. fold (len alphabet) in *.
      lia. }
    apply Hmax in H. congruence.
Qed.

End Alphabet.

(** X11. Over a non-empty alphabet without repeated letters the odometer
    successor of a word [w] over the alphabet is the all-minimum word of
    the same length when every letter of [w] is the last letter of the
    alphabet (the rollover); otherwise [w] precedes it under
    [shortLexPrecedes], and it is the least such word of that length. *)
Theorem odometerSuccessor_next_or_rollover (alphabet w : list Z) :
  NoDup alphabet -> alphabet <> [] -> over alphabet w ->
  exists w' z a0,
    odometerSuccessor w alphabet = Some w' /\
    get alphabet (-1) = Some z /\ get alphabet 0 = Some a0 /\
    (forallb (fun x => x =? z) w = true -> w' = repeat a0 (length w)) /\
    (forallb (fun x => x =? z) w = false ->
       shortLexPrecedes w w' alphabet = Some true /\
       forall v, over alphabet v -> length v = length w ->
         shortLexPrecedes w v alphabet = Some true ->
         v = w' \/ shortLexPrecedes w' v alphabet = Some true).
Proof. intros Hnd Hne Hw. now apply odometer_step_here. Qed.

Lemma odometerSuccessor_next_or_rollover_witness :
  exists w' z a0,
    odometerSuccessor [1; -2; -2] [1; -1; 2; -2] = Some w' /\
    get [1; -1; 2; -2] (-1) = Some z /\ get [1; -1; 2; -2] 0 = Some a0 /\
    (forallb (fun x => x =? z) [1; -2; -2] = true ->
       w' = repeat a0 (length [1; -2; -2])) /\
    (forallb (fun x => x =? z) [1; -2; -2] = false ->
       shortLexPrecedes [1; -2; -2] w' [1; -1; 2; -2] = Some true /\
       forall v, over [1; -1; 2; -2] v -> length v = length [1; -2; -2] ->
         shortLexPrecedes [1; -2; -2] v [1; -1; 2; -2] = Some true ->
         v = w' \/ shortLexPrecedes w' v [1; -1; 2; -2] = Some true).
Proof.
  apply odometerSuccessor_next_or_rollover.
  - repeat constructor; simpl; intuition lia.
  - discriminate.
  - unfold over; repeat constructor; simpl; tauto.
Defined.

(** X12. [shortLexSuccessor] returns the next word in shortlex order: over
    a non-empty alphabet without repeated letters, the word returned for
    [w] comes after [w] in shortlex order (shorter words first, words of
    one length by the first differing letter), and every word over the
    alphabet that comes after [w] is that word or comes after it. *)
Theorem shortLexSuccessor_is_next (alphabet w : list Z) :
  NoDup alphabet -> alphabet <> [] -> over alphabet w ->
  exists w', shortLexSuccessor w alphabet = Some w' /\ over alphabet w' /\
    shortlex_lt alphabet w w' = true /\
    forall v, over alphabet v -> shortlex_lt alphabet w v = true ->
      v = w' \/ shortlex_lt alphabet w' v = true.
Proof. intros Hnd Hne Hw. now apply shortLexSuccessor_next_here. Qed.

Lemma shortLexSuccessor_is_next_witness :
  exists w', shortLexSuccessor [-1; -1] [1; -1] = Some w' /\
    over [1; -1] w' /\
    shortlex_lt [1; -1] [-1; -1] w' = true /\
    forall v, over [1; -1] v -> shortlex_lt [1; -1] [-1; -1] v = true ->
      v = w' \/ shortlex_lt [1; -1] w' v = true.
Proof.
  apply shortLexSuccessor_is_next.
  - repeat constructor; simpl; intuition lia.
  - discriminate.
  - unfold over; repeat constructor; simpl; tauto.
Defined.

(** X13. Over a non-empty alphabet without repeated letters
    [shortLexSuccessor] never returns the empty word; the word it returns
    is one letter longer than [w] when every letter of [w] is the last
    letter of the alphabet, and as long as [w] otherwise; and two different
    words over the alphabet have different successors. *)
Theorem shortLexSuccessor_shape (alphabet w : list Z) :
  NoDup alphabet -> alphabet <> [] -> over alphabet w ->
  (exists w' z,
     shortLexSuccessor w alphabet = Some w' /\ get alphabet (-1) = Some z /\
     w' <> [] /\
     (forallb (fun x => x =? z) w = true -> length w' = S (length w)) /\
     (forallb (fun x => x =? z) w = false -> length w' = length w)) /\
  (forall v, over alphabet v ->
     shortLexSuccessor v alphabet = shortLexSuccessor w alphabet -> v = w).
Proof.
  intros Hnd Hne Hw. split; [now apply shortLexSuccessor_shape_here|].
  intros v Hv E.
  destruct (letter_at alphabet Hnd 0) as (a0 & Ha0 & _).
  { pose proof (m_pos alphabet Hne). lia. }
  destruct (shortLexSuccessor_spec alphabet a0 Hnd Ha0 w Hw)
    as (w' & Hs & _ & Hrank).
  destruct (shortLexSuccessor_spec alphabet a0 Hnd Ha0 v Hv)
    as (v' & Hs' & _ & Hrank').
  rewrite Hs, Hs' in E. injection E as ->.
  apply (rank_inj alphabet a0 Ha0); auto. lia.
Qed.

Lemma shortLexSuccessor_shape_witness :
  (exists w' z,
     shortLexSuccessor [-1; -1] [1; -1] = Some w' /\
     get [1; -1] (-1) = Some z /\ w' <> [] /\
     (forallb (fun x => x =? z) [-1; -1] = true ->
        length w' = S (length [-1; -1])) /\
     (forallb (fun x => x =? z) [-1; -1] = false ->
        length w' = length [-1; -1])) /\
  (forall v, over [1; -1] v ->
     shortLexSuccessor v [1; -1] = shortLexSuccessor [-1; -1] [1; -1] ->
     v = [-1; -1]).
Proof.
  apply shortLexSuccessor_shape.
  - repeat constructor; simpl; intuition lia.
  - discriminate.
  - unfold over; repeat constructor; simpl; tauto.
Defined.

Lemma index_none l x : ~ In x l -> index l x = None.
Proof.
  intros Hn. destruct (index l x) as [i|] eqn:E; [|reflexivity].
  exfalso. apply Hn. apply index_some in E. destruct E as [_ E].
  eapply nth_error_In; eauto.
Qed.

Lemma odometerSuccessor_snoc u x alphabet :
  odometerSuccessor (u ++ [x]) alphabet
  = (z <- get alphabet (-1) ;;
     if negb (x =? z)
     then i <- index alphabet x ;;
          y <- get alphabet (i + 1) ;;
          Some (u ++ [y])
     else r <- odometerSuccessor u alphabet ;;
          a0 <- get alphabet 0 ;;
          Some (r ++ [a0])).
Proof.
  unfold odometerSuccessor. rewrite length_app, Nat.add_comm.
  cbn [length Nat.add]. apply odometerSuccessor_fuel_snoc.
Qed.

(** X14. The two successor functions raise on an empty alphabet, for every
    word ([odometerSuccessor] only for a non-empty word: the empty word is
    returned as it is), and on a word whose last letter is not a letter of
    the alphabet. *)
Theorem successors_raise :
  (forall u x, odometerSuccessor (u ++ [x]) [] = None) /\
  (forall w, shortLexSuccessor w [] = None) /\
  (forall alphabet u x, alphabet <> [] -> ~ In x alphabet ->
     odometerSuccessor (u ++ [x]) alphabet = None /\
     shortLexSuccessor (u ++ [x]) alphabet = None).
Proof.
  split; [|split].
  - intros u x. now rewrite odometerSuccessor_snoc.
  - intros [|a w]; [reflexivity|].
    unfold shortLexSuccessor.
    assert (G : forall idxs b,
              idxs <> [] -> (forall i, In i idxs -> 0 <= i < len (a :: w)) ->
              isAllLastLetter_loop (a :: w) [] idxs b = None).
    { intros [|i idxs] b Hne Hin; [contradiction|].
      cbn [isAllLastLetter_loop].
      destruct (get (a :: w) i); reflexivity. }
    rewrite G; [reflexivity | |].
    + rewrite range_cons by (rewrite len_cons; pose proof (len_nonneg w); lia).
      discriminate.
    + intros i Hi. now apply in_range in Hi.
  - intros alphabet u x Hne Hnotin.
    destruct (exists_last Hne) as (l & z & E).
    assert (Hz : get alphabet (-1) = Some z) by (rewrite E; apply get_last).
    assert (Hxz : x <> z).
    { intros ->. apply Hnotin. rewrite E. apply in_or_app. right. now left. }
    assert (Hodo : odometerSuccessor (u ++ [x]) alphabet = None).
    { rewrite odometerSuccessor_snoc, Hz. simpl bind.
      destruct (Z.eqb_spec x z); [contradiction|]. simpl.
      now rewrite index_none. }
    split; [exact Hodo|].
    assert (Hsucc : shortLexSuccessor (u ++ [x]) alphabet
      = (isAllLastLetter <-
           isAllLastLetter_loop (u ++ [x]) alphabet
             (range 0 (len (u ++ [x]))) true ;;
         if (isAllLastLetter : bool)
         then a <- get alphabet 0 ;;
              r <- odometerSuccessor (u ++ [x]) alphabet ;;
              Some ([a] ++ r)
         else odometerSuccessor (u ++ [x]) alphabet))
      by (destruct u; reflexivity).
    rewrite Hsucc.
    pose proof (isAllLastLetter_loop_spec alphabet z Hz (u ++ [x]) [] true)
      as Hloop.
    simpl app in Hloop. change (len (@nil Z)) with 0 in Hloop.
    rewrite Hloop. simpl bind. rewrite Hodo.
    destruct (forallb (fun y => y =? z) (u ++ [x])); [|reflexivity].
    now destruct (get alphabet 0).
Qed.

Lemma successors_raise_witness :
  odometerSuccessor ([1] ++ [3]) [1; 2] = None /\
  shortLexSuccessor ([1] ++ [3]) [1; 2] = None.
Proof.
  destruct successors_raise as (_ & _ & H).
  apply H; [discriminate | simpl; intuition lia].
Defined.

End SuccessorOrder.

(** ** [nondecreasingPartitionsStartingWith] *)

Module PartitionsStartingWith.
Import Py PyFacts Partitions.

(** X15. For positive [k] and [n],
    [nondecreasingPartitionsStartingWith(k, n)] returns (with fuel at
    least [n]; more fuel gives the same list) a list without repeated
    entries whose members are exactly the non-decreasing sequences of
    positive integers with sum [n] and first entry [k]; the list is empty
    when [k > n]. *)
Theorem startingWith_partitions (k n : Z) :
  1 <= k -> 1 <= n ->
  exists ps,
    (forall fuel, (Z.to_nat n <= fuel)%nat ->
       nondecreasingPartitionsStartingWith fuel k n = Some ps) /\
    NoDup ps /\
    (forall p, In p ps <->
       (exists rest, p = k :: rest) /\ is_nondecreasing_partition n p) /\
    (n < k -> ps = []).
Proof.
  intros Hk Hn.
  destruct (startingWith_correct (Z.to_nat n) k n Hk Hn (le_n _))
    as (ps & E & Hnd & Hin).
  exists ps. split; [|split; [exact Hnd|split; [exact Hin|]]].
  - intros fuel Hfuel. eapply startingWith_fuel_le; eauto.
  - intros Hlt. destruct ps as [|p ps]; [reflexivity|]. exfalso.
    destruct (proj1 (Hin p) (or_introl eq_refl))
      as [(rest & ->) (_ & Hpos & Htot)].
    apply Forall_cons_iff in Hpos. destruct Hpos as [_ Hrest].
    apply total_nonneg in Hrest.
    assert (k + total rest = n) by exact Htot. lia.
Qed.

Lemma startingWith_partitions_witness :
  exists ps,
    (forall fuel, (Z.to_nat 6 <= fuel)%nat ->
       nondecreasingPartitionsStartingWith fuel 2 6 = Some ps) /\
    NoDup ps /\
    (forall p, In p ps <->
       (exists rest, p = 2 :: rest) /\ is_nondecreasing_partition 6 p) /\
    (6 < 2 -> ps = []).
Proof. apply startingWith_partitions; lia. Defined.

(** X16. Outside the assumed inputs: for [k <= 0 < n] the recursion of
    [nondecreasingPartitionsStartingWith(k, n)] never ends (its first
    recursive call is for [(k, n - k)], again with [k <= 0 < n - k]), so no
    amount of fuel gives a result; and [nondecreasingPartitions(n)] returns
    the empty list for [n <= 0]. *)
Theorem partitions_outside_domain :
  (forall fuel k n, k <= 0 -> 1 <= n ->
     nondecreasingPartitionsStartingWith fuel k n = None) /\
  (forall fuel n, n <= 0 -> nondecreasingPartitions fuel n = Some []).
Proof.
  split.
  - induction fuel as [|fuel IH]; intros k n Hk Hn; [reflexivity|].
    simpl nondecreasingPartitionsStartingWith.
    destruct (Z.eqb_spec k n); [lia|].
    destruct (Z.ltb_spec k n); [|lia].
    rewrite range_cons by lia. cbn [startingWith_loop].
    now rewrite IH by lia.
  - intros fuel n Hn. unfold nondecreasingPartitions.
    now rewrite range_nil by lia.
Qed.

Lemma partitions_outside_domain_witness :
  nondecreasingPartitionsStartingWith 50 0 3 = None /\
  nondecreasingPartitions 50 (-2) = Some [].
Proof.
  destruct partitions_outside_domain as [H1 H2].
  split; [apply H1; lia | apply H2; lia].
Defined.

End PartitionsStartingWith.

(** ** [positiveWithoutDuplicates] *)

Module Positives.
Import Py PyFacts.

Lemma existsb_eqb x l : existsb (fun y => y =? x) l = true <-> In x l.
Proof.
  rewrite existsb_exists. split.
  - intros (y & Hy & E). apply Z.eqb_eq in E. now subst.
  - intros H. exists x. split; [exact H | apply Z.eqb_refl].
Qed.

Lemma positives_loop_app : forall l1 l2 acc,
  positiveWithoutDuplicates_loop (l1 ++ l2) acc
  = positiveWithoutDuplicates_loop l2 (positiveWithoutDuplicates_loop l1 acc).
Proof.
  induction l1 as [|x l1 IH]; intros l2 acc; [reflexivity|].
  cbn [app positiveWithoutDuplicates_loop].
  destruct (negb (x =? 0) && negb (existsb (fun y => y =? Z.abs x) acc));
    apply IH.
Qed.

Lemma positives_loop_spec : forall l acc,
  NoDup acc -> Forall (fun y => 0 < y) acc ->
  NoDup (positiveWithoutDuplicates_loop l acc) /\
  Forall (fun y => 0 < y) (positiveWithoutDuplicates_loop l acc) /\
  (forall y, In y (positiveWithoutDuplicates_loop l acc) <->
             In y acc \/ (0 < y /\ (In y l \/ In (- y) l))).
Proof.
  induction l as [|x l IH]; intros acc Hnd Hpos.
  - simpl. split; [exact Hnd|]. split; [exact Hpos|]. intros y. tauto.
  - cbn [positiveWithoutDuplicates_loop].
    destruct (Z.eqb_spec x 0) as [->|Hx]; cbn [negb andb].
    + destruct (IH acc Hnd Hpos) as (H1 & H2 & H3).
      split; [exact H1|]. split; [exact H2|].
      intros y. rewrite H3. simpl. intuition lia.
    + destruct (existsb (fun y => y =? Z.abs x) acc) eqn:E; cbn [negb].
      * apply existsb_eqb in E.
        destruct (IH acc Hnd Hpos) as (H1 & H2 & H3).
        split; [exact H1|]. split; [exact H2|].
        intros y. rewrite H3. simpl.
        split; [tauto|].
        intros [H|[Hy [[Hxy|H]|[Hxy|H]]]]; try tauto;
          left; replace y with (Z.abs x) by lia; exact E.
      * assert (Hnotin : ~ In (Z.abs x) acc).
        { intros H. apply existsb_eqb in H. congruence. }
        destruct (IH (acc ++ [Z.abs x])) as (H1 & H2 & H3).
        { apply NoDup_app; auto.
          - repeat constructor. simpl. tauto.
          - intros a Ha [<-|[]]. contradiction. }
        { apply Forall_app. split; [exact Hpos|]. repeat constructor. lia. }
        split; [exact H1|]. split; [exact H2|].
        intros y. rewrite H3, in_app_iff. simpl.
        split.
        -- intros [[H|[Hy|[]]]|H]; [tauto | | tauto].
           right. split; [lia|].
           destruct (Z.abs_spec x) as [[_ Ha]|[_ Ha]].
           ++ left. left. lia.
           ++ right. left. lia.
        -- intros [H|[Hy [[Hxy|H]|[Hxy|H]]]]; try tauto;
             left; right; left; lia.
Qed.

(** A list of different positive numbers is returned as it is. *)
Lemma positives_loop_fixed : forall l acc,
  NoDup (acc ++ l) -> Forall (fun y => 0 < y) l ->
  positiveWithoutDuplicates_loop l acc = acc ++ l.
Proof.
  induction l as [|x l IH]; intros acc Hnd Hpos.
  - simpl. now rewrite app_nil_r.
  - cbn [positiveWithoutDuplicates_loop].
    apply Forall_cons_iff in Hpos. destruct Hpos as [Hx Hpos].
    destruct (Z.eqb_spec x 0); [lia|]. cbn [negb andb].
    rewrite Z.abs_eq by lia.
    assert (Hnotin : ~ In x acc).
    { apply NoDup_remove_2 in Hnd. intros H. apply Hnd.
      apply in_or_app. now left. }
    destruct (existsb (fun y => y =? x) acc) eqn:E.
    + apply existsb_eqb in E. contradiction.
    + cbn [negb]. rewrite IH.
      * now rewrite <- app_assoc.
      * now rewrite <- app_assoc.
      * exact Hpos.
Qed.

(** X17. [positiveWithoutDuplicates(list)] returns a list without repeated
    entries whose members are the positive numbers [y] with [y] or [-y] in
    [list]; applied to its own result it returns that result. *)
Theorem positiveWithoutDuplicates_spec (lst : list Z) :
  NoDup (positiveWithoutDuplicates lst) /\
  (forall y, In y (positiveWithoutDuplicates lst) <->
             0 < y /\ (In y lst \/ In (- y) lst)) /\
  positiveWithoutDuplicates (positiveWithoutDuplicates lst)
  = positiveWithoutDuplicates lst.
Proof.
  unfold positiveWithoutDuplicates.
  destruct (positives_loop_spec lst [] (NoDup_nil _) (Forall_nil _)) as (H1 & H2 & H3).
  split; [exact H1|]. split.
  - intros y. rewrite H3. simpl. tauto.
  - now rewrite positives_loop_fixed.
Qed.

(** X18. The positive generators of a standard alphabet:
    [positiveWithoutDuplicates(standardAlphabet(n))] is [1, 2, ..., n]. *)
Theorem positiveWithoutDuplicates_standardAlphabet (n : Z) :
  positiveWithoutDuplicates (standardAlphabet n) = range 1 (n + 1).
Proof.
  destruct (Z.le_gt_cases 0 n) as [Hn|Hn].
  - revert n Hn. apply natlike_ind.
    + reflexivity.
    + intros n Hn IH. change (Z.succ n) with (n + 1).
      rewrite StandardAlphabet.standardAlphabet_succ by lia.
      unfold positiveWithoutDuplicates in *. rewrite positives_loop_app, IH.
      rewrite (StandardAlphabet.range_snoc 1 (n + 1)) by lia.
      cbn [positiveWithoutDuplicates_loop].
      destruct (Z.eqb_spec (n + 1) 0); [lia|]. cbn [negb andb].
      rewrite Z.abs_eq by lia.
      assert (Hnot : existsb (fun y => y =? n + 1) (range 1 (n + 1)) = false).
      { destruct (existsb _ _) eqn:E; [|reflexivity].
        apply existsb_eqb, in_range in E. lia. }
      rewrite Hnot. cbn [negb].
      destruct (Z.eqb_spec (- (n + 1)) 0); [lia|]. cbn [negb andb].
      replace (Z.abs (- (n + 1))) with (n + 1) by lia.
      assert (Hin : existsb (fun y => y =? n + 1) (range 1 (n + 1) ++ [n + 1])
                    = true).
      { apply existsb_eqb, in_or_app. right. now left. }
      now rewrite Hin.
  - rewrite StandardAlphabet.standardAlphabet_nonpos by lia.
    now rewrite range_nil by lia.
Qed.

End Positives.

(** ** [Word.__str__] and [Presentation.__str__] *)

Module Rendering.
Import Py PyFacts.

Lemma chr_some i : 0 <= i < 1114112 -> PyStr.chr i = Some [i].
Proof.
  intros H. unfold PyStr.chr.
  destruct (Z.leb_spec 0 i); [|lia]. destruct (Z.ltb_spec i 1114112); [|lia].
  reflexivity.
Qed.

Lemma chr_inv i s : PyStr.chr i = Some s -> s = [i] /\ 0 <= i < 1114112.
Proof.
  unfold PyStr.chr.
  destruct (Z.leb_spec 0 i); [|discriminate].
  destruct (Z.ltb_spec i 1114112); [|discriminate].
  intros [= <-]. split; [reflexivity | lia].
Qed.

Lemma chr_none i : ~ (0 <= i < 1114112) -> PyStr.chr i = None.
Proof.
  intros H. destruct (PyStr.chr i) as [s|] eqn:E; [|reflexivity].
  apply chr_inv in E. tauto.
Qed.

Lemma str_loop_some : forall l acc,
  Forall (fun i => -1114015 <= i <= 1114015) l ->
  Word.str_loop l acc = Some (acc ++ flat_map letter_chars l).
Proof.
  induction l as [|i l IH]; intros acc Hl.
  - simpl. now rewrite app_nil_r.
  - apply Forall_cons_iff in Hl. destruct Hl as [Hi Hl].
    cbn [Word.str_loop flat_map]. unfold letter_chars at 1.
    destruct (Z.gtb_spec i 0).
    + rewrite chr_some by lia. cbn [bind]. rewrite IH by exact Hl.
      now rewrite <- app_assoc.
    + destruct (Z.eqb_spec i 0).
      * rewrite IH by exact Hl. now rewrite <- app_assoc.
      * rewrite chr_some by lia. cbn [bind]. rewrite IH by exact Hl.
        now rewrite <- !app_assoc.
Qed.

Lemma str_loop_none : forall l acc,
  ~ Forall (fun i => -1114015 <= i <= 1114015) l ->
  Word.str_loop l acc = None.
Proof.
  induction l as [|i l IH]; intros acc Hl.
  - exfalso. apply Hl. constructor.
  - cbn [Word.str_loop].
    destruct (Z.gtb_spec i 0).
    + destruct (Z.le_gt_cases i 1114015).
      * rewrite chr_some by lia. cbn [bind]. apply IH.
        intros H'. apply Hl. constructor; [lia | exact H'].
      * now rewrite chr_none by lia.
    + destruct (Z.eqb_spec i 0).
      * apply IH. intros H'. apply Hl. constructor; [lia | exact H'].
      * destruct (Z.le_gt_cases (-1114015) i).
        -- rewrite chr_some by lia. cbn [bind]. apply IH.
           intros H'. apply Hl. constructor; [lia | exact H'].
        -- now rewrite chr_none by lia.
Qed.

Lemma letter_chars_cases i :
  (0 < i /\ letter_chars i = [96 + i]) \/
  (i = 0 /\ letter_chars i = [49]) \/
  (i < 0 /\ letter_chars i = [96 - i; 39]).
Proof.
  unfold letter_chars. destruct (Z.gtb_spec i 0); [left; split; [lia | reflexivity]|].
  destruct (Z.eqb_spec i 0); [right; left; split; [lia | reflexivity]|].
  right; right. split; [lia | reflexivity].
Qed.

Lemma cons_inj (x y : Z) (l l' : list Z) :
  x :: l = y :: l' -> x = y /\ l = l'.
Proof. intros E. split; congruence. Qed.

(** What is written for a word never starts with an apostrophe. *)
Lemma flat_map_letter_chars_head l c rest :
  flat_map letter_chars l = c :: rest -> c <> 39.
Proof.
  destruct l as [|i l]; [discriminate|].
  cbn [flat_map].
  destruct (letter_chars_cases i) as [[H ->]|[[H ->]|[H ->]]];
    cbn [app]; intros E; apply cons_inj in E; destruct E as [E _]; lia.
Qed.

Lemma flat_map_letter_chars_inj : forall l1 l2,
  flat_map letter_chars l1 = flat_map letter_chars l2 -> l1 = l2.
Proof.
  induction l1 as [|i l1 IH]; intros [|j l2] E.
  - reflexivity.
  - exfalso. cbn [flat_map] in E.
    destruct (letter_chars_cases j) as [[H Ej]|[[H Ej]|[H Ej]]];
      rewrite Ej in E; discriminate.
  - exfalso. cbn [flat_map] in E.
    destruct (letter_chars_cases i) as [[H Ei]|[[H Ei]|[H Ei]]];
      rewrite Ei in E; discriminate.
  - cbn [flat_map] in E.
    destruct (letter_chars_cases i) as [[Hi Ei]|[[Hi Ei]|[Hi Ei]]];
      destruct (letter_chars_cases j) as [[Hj Ej]|[[Hj Ej]|[Hj Ej]]];
      rewrite Ei, Ej in E; cbn [app] in E;
      apply cons_inj in E; destruct E as [E1 E2]; try lia.
    + f_equal; [lia | now apply IH].
    + exfalso. apply flat_map_letter_chars_head in E2. now apply E2.
    + f_equal; [lia | now apply IH].
    + exfalso. symmetry in E2.
      apply flat_map_letter_chars_head in E2. now apply E2.
    + apply cons_inj in E2. destruct E2 as [_ E2].
      f_equal; [lia | now apply IH].
Qed.

(** X19. [Word.__str__] (and [__repr__], which has the same body) raises
    exactly when a letter lies outside [-1114015 .. 1114015], where [chr]
    raises; the assumed letters [-26 .. 26] are far inside.  When it
    returns, the string is the concatenation of what is written for each
    letter, and two words with different letter lists are written
    differently. *)
Theorem Word_str_correct :
  (forall w, Forall (fun i => -1114015 <= i <= 1114015) (Word.asIntegerList w)
     <-> Word.str w <> None) /\
  (forall w s, Word.str w = Some s ->
     s = flat_map letter_chars (Word.asIntegerList w)) /\
  (forall w1 w2 s, Word.str w1 = Some s -> Word.str w2 = Some s ->
     Word.asIntegerList w1 = Word.asIntegerList w2) /\
  (forall w, Word.repr w = Word.str w).
Proof.
  assert (Hdec : forall l : list Z,
            Forall (fun i => -1114015 <= i <= 1114015) l \/
            ~ Forall (fun i => -1114015 <= i <= 1114015) l).
  { intros l. destruct (Forall_dec (fun i => -1114015 <= i <= 1114015)) with (l := l)
      as [H|H]; auto.
    intros i. destruct (Z_le_dec (-1114015) i), (Z_le_dec i 1114015);
      (left; lia) || (right; lia). }
  assert (Hsome : forall w s, Word.str w = Some s ->
            s = flat_map letter_chars (Word.asIntegerList w)).
  { intros w s E. unfold Word.str in E.
    destruct (Hdec (Word.asIntegerList w)) as [H|H].
    - rewrite str_loop_some in E by exact H. now injection E as <-.
    - rewrite str_loop_none in E by exact H. discriminate. }
  split; [|split; [exact Hsome|split]].
  - intros w. unfold Word.str. split.
    + intros H. now rewrite str_loop_some.
    + intros H. destruct (Hdec (Word.asIntegerList w)) as [|Hn]; [assumption|].
      exfalso. apply H. now apply str_loop_none.
  - intros w1 w2 s E1 E2. apply Hsome in E1, E2.
    apply flat_map_letter_chars_inj. congruence.
  - reflexivity.
Qed.

Lemma Word_str_correct_witness :
  Word.str (Word.make [] [0; 1; 2; -1; -2]) = Some (PyStr.lit "1aba'b'") /\
  Word.asIntegerList (Word.make [] [0; 1; 2; -1; -2])
  = Word.asIntegerList (Word.make [1; -1; 2; -2] [0; 1; 2; -1; -2]).
Proof.
  destruct Word_str_correct as (_ & _ & H & _).
  split; [reflexivity|].
  apply (H _ _ (PyStr.lit "1aba'b'")); reflexivity.
Defined.

Lemma get_minus2 {A : Type} (s : list A) (a b : A) :
  get (s ++ [a; b]) (-2) = Some a.
Proof.
  unfold get. change (-2 <? 0) with true. cbv iota. rewrite len_app.
  change (len [a; b]) with 2. pose proof (len_nonneg s).
  destruct (Z.ltb_spec (len s + 2 + -2) 0); [lia|].
  replace (Z.to_nat (len s + 2 + -2)) with (length s) by (unfold len; lia).
  rewrite nth_error_app2 by lia. now rewrite Nat.sub_diag.
Qed.

Lemma slice_to_minus2 {A : Type} (s : list A) (a b : A) :
  slice_to (s ++ [a; b]) (-2) = s.
Proof.
  unfold slice_to, clamp. change (-2 <? 0) with true. cbv iota.
  rewrite len_app.
  change (len [a; b]) with 2. pose proof (len_nonneg s).
  replace (Z.to_nat (Z.max (len s + 2 + -2) 0)) with (length s)
    by (unfold len; lia).
  rewrite firstn_app, Nat.sub_diag, firstn_all. simpl. apply app_nil_r.
Qed.

Lemma strip_comma_sep s :
  Presentation.strip_comma (s ++ PyStr.lit ", ") = Some s.
Proof.
  unfold Presentation.strip_comma. change (PyStr.lit ", ") with [44; 32].
  now rewrite get_minus2, slice_to_minus2.
Qed.

Lemma strip_comma_bar s :
  Presentation.strip_comma (s ++ PyStr.lit " | ") = Some (s ++ PyStr.lit " | ").
Proof.
  unfold Presentation.strip_comma. change (PyStr.lit " | ") with [32; 124; 32].
  replace (s ++ [32; 124; 32]) with ((s ++ [32]) ++ [124; 32])
    by (now rewrite <- app_assoc).
  now rewrite get_minus2.
Qed.

Lemma flat_map_join (sep : list Z) : forall (p : list Z) (parts : list (list Z)),
  flat_map (fun q => q ++ sep) (p :: parts) = join sep (p :: parts) ++ sep.
Proof.
  intros p parts. revert p. induction parts as [|q parts IH]; intros p.
  - simpl. now rewrite app_nil_r.
  - cbn [flat_map join] in *. rewrite IH. now rewrite <- !app_assoc.
Qed.

Lemma generators_loop_some : forall positives acc,
  Forall (fun g => -96 <= g <= 1114015) positives ->
  Presentation.generators_loop positives acc
  = Some (acc ++ flat_map (fun q => q ++ PyStr.lit ", ")
                          (map (fun g => [96 + g]) positives)).
Proof.
  induction positives as [|g positives IH]; intros acc H.
  - simpl. now rewrite app_nil_r.
  - apply Forall_cons_iff in H. destruct H as [Hg H].
    cbn [Presentation.generators_loop map flat_map].
    rewrite chr_some by lia. cbn [bind]. rewrite IH by exact H.
    now rewrite <- !app_assoc.
Qed.

Lemma relations_loop_some : forall rels strs acc,
  Forall2 (fun r s => Word.str r = Some s) rels strs ->
  Presentation.relations_loop rels acc
  = Some (acc ++ flat_map (fun q => q ++ PyStr.lit ", ") strs).
Proof.
  intros rels strs acc H. revert acc.
  induction H as [|r s rels strs Hr H IH]; intros acc.
  - simpl. now rewrite app_nil_r.
  - cbn [Presentation.relations_loop flat_map]. rewrite Hr. cbn [bind].
    rewrite IH. now rewrite <- !app_assoc.
Qed.

(** X20. [Presentation.__str__] raises [IndexError] when there is no
    positive generator to write, that is when every entry of [generators]
    is 0 (in particular for the empty generator list): the string is then
    just ["<"], which has no character at index [-2]. *)
Theorem Presentation_str_no_generator (gens : list Z) (rels : list Word.t) :
  (forall x, In x gens -> x = 0) ->
  Presentation.str (Presentation.make gens rels) = None.
Proof.
  intros H. unfold Presentation.str. cbn [Presentation.generators].
  assert (E : positiveWithoutDuplicates gens = []).
  { destruct (positiveWithoutDuplicates gens) as [|y l] eqn:E; [reflexivity|].
    exfalso. unfold positiveWithoutDuplicates in E.
    destruct (Positives.positives_loop_spec gens [] (NoDup_nil _) (Forall_nil _))
      as (_ & _ & Hin).
    specialize (Hin y). rewrite E in Hin.
    destruct (proj1 Hin (or_introl eq_refl)) as [[]|[Hy [Hy'|Hy']]];
      apply H in Hy'; lia. }
  rewrite E. reflexivity.
Qed.

Lemma Presentation_str_no_generator_witness :
  Presentation.str (Presentation.make [0; 0] [Word.make [] [1]]) = None.
Proof.
  apply Presentation_str_no_generator.
  intros x [<-|[<-|[]]]; reflexivity.
Defined.

(** X21. When there is a positive generator, none of them above 1114015,
    and every relation can be written, [Presentation.__str__] returns
    ["<"], the letters of the positive generators joined by [", "],
    [" | "], the relations joined by [", "], and [">"]. *)
Theorem Presentation_str_format (gens : list Z) (rels : list Word.t)
    (strs : list (list Z)) :
  positiveWithoutDuplicates gens <> [] ->
  Forall (fun g => g <= 1114015) (positiveWithoutDuplicates gens) ->
  Forall2 (fun r s => Word.str r = Some s) rels strs ->
  Presentation.str (Presentation.make gens rels)
  = Some (PyStr.lit "<"
          ++ join (PyStr.lit ", ")
               (map (fun g => [96 + g]) (positiveWithoutDuplicates gens))
          ++ PyStr.lit " | "
          ++ join (PyStr.lit ", ") strs
          ++ PyStr.lit ">").
Proof.
  intros Hne Hle Hrels. unfold Presentation.str.
  cbn [Presentation.generators Presentation.relations].
  assert (Hpos : Forall (fun g => -96 <= g <= 1114015)
                        (positiveWithoutDuplicates gens)).
  { destruct (Positives.positives_loop_spec gens [] (NoDup_nil _) (Forall_nil _))
      as (_ & Hp & _).
    fold (positiveWithoutDuplicates gens) in Hp.
    rewrite Forall_forall in *. intros g Hg.
    specialize (Hp g Hg). specialize (Hle g Hg). simpl in Hle. lia. }
  rewrite generators_loop_some by exact Hpos.
  destruct (positiveWithoutDuplicates gens) as [|g gs]; [contradiction|].
  cbn [map]. rewrite flat_map_join, app_assoc. cbn [bind].
  rewrite strip_comma_sep. cbn [bind].
  rewrite (relations_loop_some rels strs) by exact Hrels. cbn [bind].
  destruct strs as [|s strs].
  - cbn [flat_map join]. rewrite app_nil_r, strip_comma_bar. cbn [bind].
    now rewrite <- !app_assoc.
  - rewrite flat_map_join, app_assoc, strip_comma_sep. cbn [bind].
    now rewrite <- !app_assoc.
Qed.

Lemma Presentation_str_format_witness :
  Presentation.str
    (Presentation.make (standardAlphabet 3)
       [Word.make (standardAlphabet 3) [1; -2; 3; 1]])
  = Some (PyStr.lit "<a, b, c | ab'ca>").
Proof.
  apply (Presentation_str_format (standardAlphabet 3)
           [Word.make (standardAlphabet 3) [1; -2; 3; 1]]
           [PyStr.lit "ab'ca"]).
  - discriminate.
  - repeat constructor; lia.
  - repeat constructor.
Defined.



End Rendering.

(** ** [shortLexPrecedes] on prefixes and outside the alphabet *)

Module PrefixOrder.
Import Py PyFacts.

Lemma index_absent l x : ~ In x l -> index l x = None.
Proof.
  intros Hn. destruct (index l x) as [i|] eqn:E; [|reflexivity].
  exfalso. apply Hn. apply index_some in E. destruct E as [_ E].
  eapply nth_error_In; eauto.
Qed.

(** X22. What [shortLexPrecedes] computes, for any alphabet and any words:
    a common prefix is skipped without looking at the alphabet; a word
    precedes each of its proper extensions and is preceded by none; and the
    call raises when the first letters that differ are not both letters of
    the alphabet. *)
Theorem shortLexPrecedes_prefix_order (alphabet : list Z) :
  (forall u a b,
     shortLexPrecedes (u ++ a) (u ++ b) alphabet
     = shortLexPrecedes a b alphabet) /\
  (forall u x v,
     shortLexPrecedes u (u ++ x :: v) alphabet = Some true /\
     shortLexPrecedes (u ++ x :: v) u alphabet = Some false) /\
  (forall u x y a b, x <> y -> ~ In x alphabet \/ ~ In y alphabet ->
     shortLexPrecedes (u ++ x :: a) (u ++ y :: b) alphabet = None).
Proof.
  assert (Hskip : forall u a b,
            shortLexPrecedes (u ++ a) (u ++ b) alphabet
            = shortLexPrecedes a b alphabet).
  { induction u as [|x u IH]; intros a b; [reflexivity|].
    cbn [app shortLexPrecedes]. rewrite Z.eqb_refl. cbn [negb]. apply IH. }
  split; [exact Hskip|]. split.
  - intros u x v. split.
    + rewrite <- (app_nil_r u) at 1. rewrite Hskip. reflexivity.
    + rewrite <- (app_nil_r u) at 2. rewrite Hskip. reflexivity.
  - intros u x y a b Hxy Hnot. rewrite Hskip. cbn [shortLexPrecedes].
    destruct (Z.eqb_spec x y); [contradiction|]. cbn [negb].
    destruct Hnot as [H|H].
    + now rewrite (index_absent _ _ H).
    + rewrite (index_absent _ _ H). now destruct (index alphabet x).
Qed.

Lemma shortLexPrecedes_prefix_order_witness :
  shortLexPrecedes ([1; 2] ++ 5 :: [1]) ([1; 2] ++ 1 :: []) [1; 2; 3] = None.
Proof.
  destruct (shortLexPrecedes_prefix_order [1; 2; 3]) as (_ & _ & H).
  apply H; [lia | left; simpl; intuition lia].
Defined.

End PrefixOrder.
